(** * Image.Converter.py: the conversion thread, embedded and verified

    A shallow embedding of [ConverterThread] (src/Image.Converter.py):
    the constructor, [_calculate_total_size] and [run], with the
    operating system, the imaging libraries and the controller that
    owns the thread taken as explicit inputs.  Of the window
    ([ImageConverter]) the parts that decide what the thread is given
    and what is shown of its result are embedded too: the folder
    filter of [select_files_or_folder], the launch branch of
    [toggle_conversion] and the compression ratio of
    [on_conversion_complete].

    A [World] is one record: a path has the same size each time it is
    read.  [__init__] takes a world of its own, [run] reads one world
    throughout, and [run_at] is [run] with a world for each iteration
    of the loop: there a file can change between the constructor and
    the loop, and between one iteration and the next, as it does when
    the run overwrites one of its own inputs.  The statements that
    need the sizes fixed are made of [run_at] and say so.

    Python [int] is [Z] (byte sizes, which the OS never reports
    negative, are [N]; counters are [nat]).  Python [float] is IEEE
    binary64; a float value is kept as the rational number it denotes
    and every float operation rounds its exact result to 53 significant
    bits, ties to even (module [Float]).  The exponent range is not
    bounded there: the program's floats are sizes, percentages, pixel
    counts and seconds, far from overflow and from the subnormals. *)

From Stdlib Require Import ZArith NArith QArith Qround Qabs Qpower Qreduction.
From Stdlib Require Import Lia Lqa List Bool String Ascii Permutation Sorted.
From Stdlib Require Import DecimalString Floats.SpecFloat.
From Stdlib Require Qcanon.
Import ListNotations.

Set Implicit Arguments.

(* ================================================================= *)
(** ** Python floats *)

Module Float.

Local Open Scope Q_scope.

(** [floor (log2 x)] for a positive rational. *)
Definition ilog2 (x : Q) : Z :=
  let k := (Z.log2 (Qnum x) - Z.log2 (Zpos (Qden x)))%Z in
  if Qle_bool (2 ^ k) x then k else (k - 1)%Z.

(** Nearest integer, ties to the even one. *)
Definition round_even (x : Q) : Z :=
  let f := Qfloor x in
  match Qcompare (x - inject_Z f) (1 # 2) with
  | Lt => f
  | Gt => (f + 1)%Z
  | Eq => if Z.even f then f else (f + 1)%Z
  end.

(** A positive rational rounded to 53 significant bits. *)
Definition rnd_pos (x : Q) : Q :=
  let e := (ilog2 x - 52)%Z in
  Qred (inject_Z (round_even (x / 2 ^ e)) * 2 ^ e).

(** The binary64 value nearest to [x]. *)
Definition rnd (x : Q) : Q :=
  let y := Qred x in
  match Qcompare y 0 with
  | Eq => 0
  | Gt => rnd_pos y
  | Lt => Qred (- rnd_pos (Qred (- y)))
  end.

(** [float(n)], [a + b], [a - b], [a * b], [a / b] (divisor not zero). *)
Definition of_int (n : Z) : Q := rnd (inject_Z n).
Definition add (a b : Q) : Q := rnd (a + b).
Definition sub (a b : Q) : Q := rnd (a - b).
Definition mul (a b : Q) : Q := rnd (a * b).
Definition div (a b : Q) : Q := rnd (a / b).

(** [int(x)]: truncation towards zero. *)
Definition to_int (x : Q) : Z :=
  if Qle_bool 0 x then Qfloor x else Qceiling x.

(** [a > b] and [a < b] on floats. *)
Definition gt (a b : Q) : bool := negb (Qle_bool a b).
Definition lt (a b : Q) : bool := negb (Qle_bool b a).

(** The built-in [max(a, b)]: the first argument unless the second
    is strictly greater; [max(a, b, c)] goes on from there. *)
Definition max (a b : Q) : Q := if gt b a then b else a.
Definition max3 (a b c : Q) : Q := max (max a b) c.

(** Half a unit in the last place of 1.0: the relative error bound. *)
Definition ulp_half : Q := 1 # 9007199254740992.

(** [x // y] and [x % y] for a positive [y]: Python computes the
    remainder exactly ([fmod]) and the quotient from it, so both are
    the exact floor quotient and remainder of the values (for
    quotients below 2^53). *)
Definition floordiv (x y : Q) : Q := inject_Z (Qfloor (x / y)).
Definition fmod (x y : Q) : Q := Qred (x - y * inject_Z (Qfloor (x / y))).

(** The value of a binary64 datum of the Standard Library's
    specification of IEEE 754, to compare [rnd] with it. *)
Definition SF2Q (f : spec_float) : option Q :=
  match f with
  | S754_zero _ => Some 0
  | S754_finite s m e =>
      Some (Qred ((if s then - inject_Z (Zpos m) else inject_Z (Zpos m)) * 2 ^ e))
  | _ => None
  end.

Definition SFofZ (n : Z) : spec_float :=
  binary_normalize 53 1024 n 0 false.

Definition agrees (f : spec_float) (q : Q) : bool :=
  match SF2Q f with
  | Some v => Qeq_bool v q
  | None => false
  end.

End Float.

(* ================================================================= *)
(** ** Text *)

Local Open Scope string_scope.

(** [str(n)] for an [int]. *)
Definition str_int (n : Z) : string := NilZero.string_of_int (Z.to_int n).

Definition two_digits (n : Z) : string :=
  if (n <? 10)%Z then "0" ++ str_int n else str_int n.

(** [f"{x:.2f}"]: the exact value rounded to hundredths, ties to even. *)
Definition format_2f (x : Q) : string :=
  let h := Float.round_even (Qabs x * 100) in
  (if Qle_bool 0 x then "" else "-")
    ++ str_int (h / 100) ++ "." ++ two_digits (h mod 100).

(** [s[1:]] *)
Definition drop_first (s : string) : string :=
  match s with
  | EmptyString => EmptyString
  | String _ rest => rest
  end.

(** [x in l] for a list of strings. *)
Definition mem (x : string) (l : list string) : bool :=
  existsb (String.eqb x) l.

(* ================================================================= *)
(** ** What the thread sees of the outside *)

(** The exceptions the handlers of [run] tell apart: [MemoryError],
    [ImportError] (with [str(e)]) and every other [Exception]. *)
Inductive exn : Type :=
| MemoryError
| ImportError (msg : string)
| OtherException (msg : string).

Definition result (A : Type) : Type := (exn + A)%type.

Definition bind {A B : Type} (r : result A) (k : A -> result B) : result B :=
  match r with
  | inl e => inl e
  | inr a => k a
  end.

Notation "x <- r ;; k" := (bind r (fun x => k))
  (at level 61, r at next level, right associativity).
Notation "' p <- r ;; k" := (bind r (fun p => k))
  (at level 61, p pattern, r at next level, right associativity).

(** The file system, [os.path], [str] methods and the imaging
    libraries.  A lookup that raises [OSError] is [None]. *)
Record World : Type := {
  path_exists : string -> bool;            (* os.path.exists *)
  getsize : string -> option N;            (* os.path.getsize *)
  makedirs : string -> option string;      (* os.makedirs: [Some (str e)] when it raises *)
  basename : string -> string;             (* os.path.basename *)
  splitext : string -> string * string;    (* os.path.splitext *)
  join : string -> string -> string;       (* os.path.join *)
  upper : string -> string;                (* str.upper *)
  lower : string -> string;                (* str.lower *)
  pdf_converter : bool;                    (* PDF_CONVERTER == "pymupdf" *)
  psd_open : string -> result (Z * Z);     (* PSDImage.open, composite: psd.width, psd.height *)
  pdf_render : string -> result (Z * Z);   (* first page at zoom 16, as an image: its size *)
  image_open : string -> result (Z * Z);   (* Image.open: img.size *)
  copy : string -> result unit;            (* img.copy() *)
  resize : string -> Z * Z -> result unit; (* image.resize((w, h), LANCZOS) *)
  encode : string -> string -> result unit;(* convert and image.save(output_path, ...) *)
  saved_size : string -> option N          (* os.path.getsize(output_path) after the save *)
}.

(** What one loop iteration reads of the attributes the controller
    writes ([stop()], [skip_all], [skip_errors]) and of the clock. *)
Record Reads : Type := {
  is_running : bool;            (* self._is_running at the top of the iteration *)
  skip_all : bool;              (* self.skip_all before processing *)
  skip_errors : list string;    (* self.skip_errors *)
  skip_all_in_handler : bool;   (* self.skip_all in an except clause *)
  elapsed_time : Q              (* time.time() - self.start_time *)
}.

(** The three signals. *)
Inductive Event : Type :=
| progress_signal (percent : Z) (eta_text speed_text : string)
| completion_signal (last_output_path : string) (input_size output_size : Q)
                    (successes failures : nat)
| error_signal (message kind : string).

(** The attributes of the thread, the locals of [run] that outlive an
    iteration, and the signals emitted so far (oldest first). *)
Record Thread : Type := {
  files : list string;
  output_dir : string;
  format_ : string;
  psd_resolution : string;
  total_size : N;
  processed_size : N;
  success_count : nat;
  failure_count : nat;
  last_output_path : string;
  output_total_size : N;
  emitted : list Event
}.

Definition SUPPORTED_FORMATS : list string :=
  ["PNG"; "JPEG"; "BMP"; "GIF"; "TIFF"; "WEBP"; "PDF"].

Definition set_files (fs : list string) (t : Thread) : Thread :=
  {| files := fs; output_dir := output_dir t; format_ := format_ t;
     psd_resolution := psd_resolution t; total_size := total_size t;
     processed_size := processed_size t; success_count := success_count t;
     failure_count := failure_count t; last_output_path := last_output_path t;
     output_total_size := output_total_size t; emitted := emitted t |}.

Definition add_processed (n : N) (t : Thread) : Thread :=
  {| files := files t; output_dir := output_dir t; format_ := format_ t;
     psd_resolution := psd_resolution t; total_size := total_size t;
     processed_size := processed_size t + n; success_count := success_count t;
     failure_count := failure_count t; last_output_path := last_output_path t;
     output_total_size := output_total_size t; emitted := emitted t |}.

Definition incr_success (t : Thread) : Thread :=
  {| files := files t; output_dir := output_dir t; format_ := format_ t;
     psd_resolution := psd_resolution t; total_size := total_size t;
     processed_size := processed_size t; success_count := S (success_count t);
     failure_count := failure_count t; last_output_path := last_output_path t;
     output_total_size := output_total_size t; emitted := emitted t |}.

Definition incr_failure (t : Thread) : Thread :=
  {| files := files t; output_dir := output_dir t; format_ := format_ t;
     psd_resolution := psd_resolution t; total_size := total_size t;
     processed_size := processed_size t; success_count := success_count t;
     failure_count := S (failure_count t); last_output_path := last_output_path t;
     output_total_size := output_total_size t; emitted := emitted t |}.

Definition set_last_output_path (p : string) (t : Thread) : Thread :=
  {| files := files t; output_dir := output_dir t; format_ := format_ t;
     psd_resolution := psd_resolution t; total_size := total_size t;
     processed_size := processed_size t; success_count := success_count t;
     failure_count := failure_count t; last_output_path := p;
     output_total_size := output_total_size t; emitted := emitted t |}.

Definition add_output (n : N) (t : Thread) : Thread :=
  {| files := files t; output_dir := output_dir t; format_ := format_ t;
     psd_resolution := psd_resolution t; total_size := total_size t;
     processed_size := processed_size t; success_count := success_count t;
     failure_count := failure_count t; last_output_path := last_output_path t;
     output_total_size := output_total_size t + n; emitted := emitted t |}.

Definition set_output_total_size (n : N) (t : Thread) : Thread :=
  {| files := files t; output_dir := output_dir t; format_ := format_ t;
     psd_resolution := psd_resolution t; total_size := total_size t;
     processed_size := processed_size t; success_count := success_count t;
     failure_count := failure_count t; last_output_path := last_output_path t;
     output_total_size := n; emitted := emitted t |}.

Definition emit (e : Event) (t : Thread) : Thread :=
  {| files := files t; output_dir := output_dir t; format_ := format_ t;
     psd_resolution := psd_resolution t; total_size := total_size t;
     processed_size := processed_size t; success_count := success_count t;
     failure_count := failure_count t; last_output_path := last_output_path t;
     output_total_size := output_total_size t; emitted := emitted t ++ [e] |}.

(* ================================================================= *)
(** ** Resolution rules of the decoders *)

(** [if self.psd_resolution == "HD": ... elif ... == "FHD": ... else:]
    the target box. *)
Definition target_box (resolution : string) : Z * Z :=
  if resolution =? "HD" then (1280, 720)%Z
  else if resolution =? "FHD" then (1920, 1080)%Z
  else (3840, 2160)%Z.

Definition ZeroDivisionError : exn := OtherException "division by zero".

(** The size a PSD composite of [width] x [height] is resized to. *)
Definition psd_size (resolution : string) (width height : Z) : result (Z * Z) :=
  let '(target_width, target_height) := target_box resolution in
  if (height =? 0)%Z then inl ZeroDivisionError else
  let aspect_ratio := Float.div (inject_Z width) (inject_Z height) in
  if Float.gt aspect_ratio
       (Float.div (inject_Z target_width) (inject_Z target_height))
  then
    let new_width := target_width in
    let new_height := Float.to_int (Float.div (Float.of_int new_width) aspect_ratio) in
    inr (new_width, new_height)
  else
    let new_height := target_height in
    let new_width := Float.to_int (Float.mul (Float.of_int new_height) aspect_ratio) in
    inr (new_width, new_height).

(** The scale of a raster image towards the 3840 x 2160 minimum (the
    same lines in both branches of the file size test). *)
Definition raster_scale (width height : Z) : result Q :=
  let min_width := 3840%Z in
  let min_height := 2160%Z in
  if (width =? 0)%Z || (height =? 0)%Z then inl ZeroDivisionError else
  let scale_w := Float.max 1 (Float.div (inject_Z min_width) (inject_Z width)) in
  let scale_h := Float.max 1 (Float.div (inject_Z min_height) (inject_Z height)) in
  inr (Float.max scale_w scale_h).

Definition scaled (width height : Z) (scale : Q) : Z * Z :=
  (Float.to_int (Float.mul (Float.of_int width) scale),
   Float.to_int (Float.mul (Float.of_int height) scale)).

(* ================================================================= *)
(** ** The thread *)

Inductive Flow : Type :=
| Continue   (* the iteration ended, by [continue] or at its last line *)
| Break      (* [break]: [_is_running] was false *)
| Uncaught.  (* an exception no handler of [run] catches *)

(** How [run] returned. *)
Inductive Exit : Type :=
| Completed        (* the loop visited every file *)
| Cancelled        (* the loop left by [break] *)
| DirectoryError   (* [return] after DIR_ERROR *)
| Crashed.         (* an exception left [run] *)

Section Converter.

Variable w : World.

(** [_calculate_total_size] *)
Fixpoint _calculate_total_size (fs : list string) : N :=
  match fs with
  | [] => 0%N
  | file :: rest =>
      (match getsize w file with Some n => n | None => 0 end
       + _calculate_total_size rest)%N
  end.

(** [__init__] *)
Definition init (fs : list string) (out fmt resolution : string) : Thread :=
  {| files := fs; output_dir := out; format_ := fmt;
     psd_resolution := resolution;
     total_size := _calculate_total_size fs;
     processed_size := 0; success_count := 0; failure_count := 0;
     last_output_path := ""; output_total_size := 0; emitted := [] |}.

(** *** The pre-sort: [self.files.sort(key=...)] inside [try] *)

(** The key, [os.path.getsize(f) if os.path.exists(f) else 0];
    [None] when the lookup raises. *)
Definition sort_key (f : string) : option N :=
  if path_exists w f then getsize w f else Some 0%N.

(** [list.sort] first computes every key, in order; an exception
    there leaves the list as it was. *)
Fixpoint decorate (fs : list string) : option (list (N * string)) :=
  match fs with
  | [] => Some []
  | f :: rest =>
      match sort_key f with
      | None => None
      | Some k =>
          match decorate rest with
          | None => None
          | Some kr => Some ((k, f) :: kr)
          end
      end
  end.

(** A stable sort by key (the order [list.sort] guarantees). *)
Fixpoint insert (x : N * string) (l : list (N * string)) : list (N * string) :=
  match l with
  | [] => [x]
  | y :: l' => if (fst x <=? fst y)%N then x :: l else y :: insert x l'
  end.

Fixpoint sort_by_key (l : list (N * string)) : list (N * string) :=
  match l with
  | [] => []
  | x :: l' => insert x (sort_by_key l')
  end.

Definition presort (fs : list string) : list string :=
  match decorate fs with
  | Some kfs => map snd (sort_by_key kfs)
  | None => fs
  end.

(** *** Progress, ETA and speed *)

(** [int((self.processed_size / self.total_size) * 100) if
    self.total_size > 0 else int(((i + 1) / total_files) * 100)] *)
Definition progress_of (t : Thread) (i : nat) : Z :=
  if (0 <? total_size t)%N then
    Float.to_int
      (Float.mul (Float.div (inject_Z (Z.of_N (processed_size t)))
                            (inject_Z (Z.of_N (total_size t)))) 100)
  else
    Float.to_int
      (Float.mul (Float.div (inject_Z (Z.of_nat (i + 1)))
                            (inject_Z (Z.of_nat (List.length (files t))))) 100).

(** The two branches of "Format ETA". *)
Definition format_eta (remaining_seconds : Q) : string :=
  if Float.lt remaining_seconds 60 then
    "ETA: " ++ str_int (Float.to_int remaining_seconds) ++ "s"
  else
    "ETA: " ++ str_int (Float.to_int (Float.floordiv remaining_seconds 60))
      ++ "m " ++ str_int (Float.to_int (Float.fmod remaining_seconds 60)) ++ "s".

Definition remaining_of (elapsed : Q) (progress : Z) : Q :=
  let total_time_estimate :=
    Float.mul elapsed (Float.div 100 (inject_Z progress)) in
  Float.sub total_time_estimate elapsed.

(** [eta_text] and [speed_text] of the snapshot after a conversion. *)
Definition eta_speed (t : Thread) (progress : Z) (elapsed : Q) : string * string :=
  if Float.gt elapsed 0 && (0 <? processed_size t)%N then
    let mb_per_sec :=
      Float.div
        (Float.div (Float.div (inject_Z (Z.of_N (processed_size t))) 1024) 1024)
        elapsed in
    let eta_text :=
      if (0 <? progress)%Z then format_eta (remaining_of elapsed progress)
      else "ETA: Calculating..." in
    (eta_text, "Speed: " ++ format_2f mb_per_sec ++ " MB/s")
  else
    ("ETA: Calculating...", "Speed: Calculating...").

(** The snapshot of a skipped file. *)
Definition emit_skipping (i : nat) (t : Thread) : Thread :=
  emit (progress_signal (progress_of t i) "Skipping..." "") t.

(** *** Decoding *)

Definition decode (resolution file ext : string) (file_size : N) : result (Z * Z) :=
  if ext =? "PSD" then
    '(width, height) <- psd_open w file ;;
    new_size <- psd_size resolution width height ;;
    _ <- resize w file new_size ;;
    inr new_size
  else if ext =? "PDF" then
    if pdf_converter w then pdf_render w file
    else inl (ImportError
      "PDF conversion requires PyMuPDF. Please install with: pip install PyMuPDF")
  else if (100 * 1024 * 1024 <? file_size)%N then
    (* [with Image.open(file) as img:] *)
    '(width, height) <- image_open w file ;;
    scale <- raster_scale width height ;;
    if Float.gt scale 1 then
      _ <- resize w file (scaled width height scale) ;;
      inr (scaled width height scale)
    else
      _ <- copy w file ;;
      inr (width, height)
  else
    '(width, height) <- image_open w file ;;
    scale <- raster_scale width height ;;
    if Float.gt scale 1 then
      _ <- resize w file (scaled width height scale) ;;
      inr (scaled width height scale)
    else
      inr (width, height).

(** The [try] block: decode, then convert and save. *)
Definition process (resolution file ext output_path : string) (file_size : N)
  : result unit :=
  _ <- decode resolution file ext file_size ;;
  encode w file output_path.

(** *** One iteration of [for i, file in enumerate(self.files)] *)

Definition body (i : nat) (file : string) (rd : Reads) (t : Thread) : Flow * Thread :=
  if negb (is_running rd) then (Break, t) else
  if negb (path_exists w file) then
    if skip_all rd then
      let t := incr_failure t in
      let t := add_processed 0 t in
      (Continue, emit_skipping i t)
    else
      let t := emit (error_signal ("File not found: " ++ file) "FILE_NOT_FOUND") t in
      (Continue, incr_failure t)
  else
  let '(name, ext) := splitext w (basename w file) in
  let ext := upper w (drop_first ext) in
  if mem ext (skip_errors rd) || skip_all rd then
    match getsize w file with
    | None => (Uncaught, t)
    | Some n =>
        let t := add_processed n t in
        let t := emit_skipping i t in
        (Continue, incr_failure t)
    end
  else
  if negb (mem ext SUPPORTED_FORMATS) && negb (ext =? "PSD") then (Continue, t) else
  let file_size := match getsize w file with Some n => n | None => 0%N end in
  let output_path := join w (output_dir t) (name ++ "." ++ lower w (format_ t)) in
  let t := set_last_output_path output_path t in
  match process (psd_resolution t) file ext output_path file_size with
  | inr _ =>
      let t := incr_success t in
      let t := match saved_size w output_path with
               | Some n => add_output n t
               | None => t
               end in
      let t := add_processed file_size t in
      let progress := progress_of t i in
      let '(eta_text, speed_text) := eta_speed t progress (elapsed_time rd) in
      (Continue, emit (progress_signal progress eta_text speed_text) t)
  | inl MemoryError =>
      if skip_all_in_handler rd then
        let t := incr_failure t in
        let t := add_processed file_size t in
        (Continue, emit_skipping i t)
      else
        let t := emit (error_signal
                  ("Not enough memory to process " ++ basename w file
                     ++ ". Try closing other applications.") "MEMORY") t in
        (Continue, incr_failure t)
  | inl (ImportError msg) =>
      let t := emit (error_signal ("Missing library: " ++ msg) "IMPORT_ERROR") t in
      (Continue, incr_failure t)
  | inl (OtherException msg) =>
      if skip_all_in_handler rd then
        let t := incr_failure t in
        let t := add_processed file_size t in
        (Continue, emit_skipping i t)
      else
        let error_type := ext in
        let t := emit (error_signal
                  ("Error processing " ++ basename w file ++ ": " ++ msg)
                  error_type) t in
        (Continue, incr_failure t)
  end.

(** *** The loop and [run] *)

Variable reads : nat -> Reads.

Fixpoint loop (i : nat) (fs : list string) (t : Thread) : Flow * Thread :=
  match fs with
  | [] => (Continue, t)
  | file :: rest =>
      match body i file (reads i) t with
      | (Continue, t') => loop (S i) rest t'
      | stopped => stopped
      end
  end.

Definition run (t : Thread) : Exit * Thread :=
  match
    (if path_exists w (output_dir t) then None else makedirs w (output_dir t))
  with
  | Some e =>
      (DirectoryError,
       emit (error_signal ("Failed to create output directory: " ++ e) "DIR_ERROR") t)
  | None =>
      let t := set_last_output_path "" t in
      let t := set_output_total_size 0 t in
      let t := set_files (presort (files t)) t in
      let '(flow, t) := loop 0 (files t) t in
      match flow with
      | Uncaught => (Crashed, t)
      | _ =>
          (match flow with Break => Cancelled | _ => Completed end,
           emit (completion_signal (last_output_path t)
                   (Float.of_int (Z.of_N (total_size t)))
                   (Float.of_int (Z.of_N (output_total_size t)))
                   (success_count t) (failure_count t)) t)
      end
  end.

End Converter.

(* ================================================================= *)
(** ** Vocabulary of the statements *)

(** The upper-cased extension [run] computes for a file. *)
Definition extension_of (w : World) (file : string) : string :=
  upper w (drop_first (snd (splitext w (basename w file)))).

(** [output_path] of a file. *)
Definition output_path_of (w : World) (t : Thread) (file : string) : string :=
  join w (output_dir t)
    (fst (splitext w (basename w file)) ++ "." ++ lower w (format_ t)).

(** [file_size] of a file that reaches the [try] block. *)
Definition file_size_of (w : World) (file : string) : N :=
  match getsize w file with Some n => n | None => 0%N end.

(** What the [try] block does with a file. *)
Definition attempt (w : World) (t : Thread) (file : string) : result unit :=
  process w (psd_resolution t) file (extension_of w file)
    (output_path_of w t file) (file_size_of w file).

(** A recognized extension: the seven target formats and PSD. *)
Definition recognized (ext : string) : bool :=
  mem ext SUPPORTED_FORMATS || (ext =? "PSD").

(** The skip policy holds for an extension. *)
Definition policy_skips (rd : Reads) (ext : string) : bool :=
  mem ext (skip_errors rd) || skip_all rd.

(** The files, with their indices, that the loop reaches before it
    sees [_is_running] false. *)
Fixpoint reached (reads : nat -> Reads) (i : nat) (fs : list string)
  : list (nat * string) :=
  match fs with
  | [] => []
  | file :: rest =>
      if is_running (reads i) then (i, file) :: reached reads (S i) rest else []
  end.

(** The files the counters count: every reached file but an existing,
    unskipped one of unrecognized extension. *)
Definition counted_at (w : World) (rd : Reads) (file : string) : bool :=
  negb (path_exists w file)
  || policy_skips rd (extension_of w file)
  || recognized (extension_of w file).

Definition counted (w : World) (reads : nat -> Reads) (x : nat * string) : bool :=
  counted_at w (reads (fst x)) (snd x).

(** The number of reached files of recognized extension. *)
Definition recognized_reached (w : World) (reads : nat -> Reads) (fs : list string)
  : nat :=
  List.length
    (filter (fun x => recognized (extension_of w (snd x))) (reached reads 0 fs)).

(** An iteration that adds the whole size of its file to
    [processed_size]: the file is there with a size, the loop is
    running, and the file is skipped by policy, or converted, or fails
    with [MemoryError] or another exception while [skip_all] is set. *)
Definition advancing (w : World) (t : Thread) (rd : Reads) (file : string) : bool :=
  is_running rd && path_exists w file
  && match getsize w file with Some _ => true | None => false end
  && (policy_skips rd (extension_of w file)
      || (recognized (extension_of w file)
          && match attempt w t file with
             | inr _ => true
             | inl MemoryError => skip_all_in_handler rd
             | inl (ImportError _) => false
             | inl (OtherException _) => skip_all_in_handler rd
             end)).




(** The attributes [run] never assigns after the pre-sort. *)
Definition same_job (t t' : Thread) : Prop :=
  files t' = files t /\ output_dir t' = output_dir t /\ format_ t' = format_ t
  /\ psd_resolution t' = psd_resolution t /\ total_size t' = total_size t.

(** What the [except] clauses do with a failed conversion. *)
Definition handle (w : World) (i : nat) (file : string) (rd : Reads) (t : Thread)
    (e : exn) : Thread :=
  match e with
  | MemoryError =>
      if skip_all_in_handler rd then
        emit_skipping i (add_processed (file_size_of w file) (incr_failure t))
      else
        incr_failure (emit (error_signal
          ("Not enough memory to process " ++ basename w file
             ++ ". Try closing other applications.") "MEMORY") t)
  | ImportError msg =>
      incr_failure (emit (error_signal ("Missing library: " ++ msg) "IMPORT_ERROR") t)
  | OtherException msg =>
      if skip_all_in_handler rd then
        emit_skipping i (add_processed (file_size_of w file) (incr_failure t))
      else
        incr_failure (emit (error_signal
          ("Error processing " ++ basename w file ++ ": " ++ msg)
          (extension_of w file)) t)
  end.

(** What [run] does after a successful save. *)
Definition succeed (w : World) (i : nat) (file : string) (rd : Reads) (t : Thread)
  : Thread :=
  let t1 := incr_success t in
  let t2 := match saved_size w (output_path_of w t file) with
            | Some n => add_output n t1
            | None => t1
            end in
  let t3 := add_processed (file_size_of w file) t2 in
  emit (progress_signal (progress_of t3 i)
          (fst (eta_speed t3 (progress_of t3 i) (elapsed_time rd)))
          (snd (eta_speed t3 (progress_of t3 i) (elapsed_time rd)))) t3.

(** The last signal emitted is a snapshot of [percent]. *)
Definition last_snapshot (t : Thread) (percent : Z) : Prop :=
  exists earlier eta_text speed_text,
    emitted t = (earlier ++ [progress_signal percent eta_text speed_text])%list.

(** The aspect ratio W/H exceeds Tw/Th, as exact fractions. *)
Definition wider (W H Tw Th : Z) : Prop :=
  (inject_Z Tw / inject_Z Th < inject_Z W / inject_Z H)%Q.

(** The integer [n] is within one pixel of the exact value [x], and
    not above it. *)
Definition within_a_pixel (n : Z) (x : Q) : Prop :=
  (x - 1 <= inject_Z n /\ inject_Z n <= x)%Q.

(** The output directory is there, or can be made. *)
Definition directory_ready (w : World) (out : string) : Prop :=
  path_exists w out = true \/ makedirs w out = None.

(** The thread as the loop finds it: the locals of [run] set, the
    list pre-sorted. *)
Definition entered (w : World) (t : Thread) : Thread :=
  set_files (presort w (files t))
    (set_output_total_size 0 (set_last_output_path "" t)).

(** [run] once past the directory check. *)
Definition started (w : World) (reads : nat -> Reads) (t : Thread) : Exit * Thread :=
  let t1 := entered w t in
  match loop w reads 0 (files t1) t1 with
  | (Uncaught, t2) => (Crashed, t2)
  | (flow, t2) =>
      (match flow with Break => Cancelled | _ => Completed end,
       emit (completion_signal (last_output_path t2)
               (Float.of_int (Z.of_N (total_size t2)))
               (Float.of_int (Z.of_N (output_total_size t2)))
               (success_count t2) (failure_count t2)) t2)
  end.

(* ================================================================= *)
(** ** A world that changes during the run *)

(** The files are on a disk the run itself writes to.  [loop_at] is
    [loop] where iteration [i] reads the world [ws i]. *)
Fixpoint loop_at (ws : nat -> World) (reads : nat -> Reads) (i : nat)
    (fs : list string) (t : Thread) : Flow * Thread :=
  match fs with
  | [] => (Continue, t)
  | file :: rest =>
      match body (ws i) i file (reads i) t with
      | (Continue, t') => loop_at ws reads (S i) rest t'
      | stopped => stopped
      end
  end.

(** [run] where the directory check and the pre-sort read [w], the
    world [run] starts in, and iteration [i] reads [ws i].  [run w] is
    [run_at w (fun _ => w)]. *)
Definition run_at (w : World) (ws : nat -> World) (reads : nat -> Reads)
    (t : Thread) : Exit * Thread :=
  match
    (if path_exists w (output_dir t) then None else makedirs w (output_dir t))
  with
  | Some e =>
      (DirectoryError,
       emit (error_signal ("Failed to create output directory: " ++ e) "DIR_ERROR") t)
  | None =>
      let t := set_last_output_path "" t in
      let t := set_output_total_size 0 t in
      let t := set_files (presort w (files t)) t in
      let '(flow, t) := loop_at ws reads 0 (files t) t in
      match flow with
      | Uncaught => (Crashed, t)
      | _ =>
          (match flow with Break => Cancelled | _ => Completed end,
           emit (completion_signal (last_output_path t)
                   (Float.of_int (Z.of_N (total_size t)))
                   (Float.of_int (Z.of_N (output_total_size t)))
                   (success_count t) (failure_count t)) t)
      end
  end.

(* ================================================================= *)
(** ** A concrete world *)

Module Example.

(** POSIX [os.path] and ASCII [str] methods. *)
Fixpoint rfind (c : ascii) (s : string) : option nat :=
  match s with
  | EmptyString => None
  | String a rest =>
      match rfind c rest with
      | Some n => Some (S n)
      | None => if Ascii.eqb a c then Some 0%nat else None
      end
  end.

Definition posix_basename (p : string) : string :=
  match rfind "/" p with
  | Some n => substring (S n) (String.length p - S n) p
  | None => p
  end.

Definition posix_splitext (p : string) : string * string :=
  let start := match rfind "/" p with Some n => S n | None => 0%nat end in
  match rfind "." p with
  | Some d =>
      if (start <=? d)%nat
         && existsb (fun c => negb (Ascii.eqb c "."))
              (list_ascii_of_string (substring start (d - start) p))
      then (substring 0 d p, substring d (String.length p - d) p)
      else (p, "")
  | None => (p, "")
  end.

Definition posix_join (a b : string) : string := a ++ "/" ++ b.

Definition map_string (f : ascii -> ascii) (s : string) : string :=
  string_of_list_ascii (map f (list_ascii_of_string s)).

Definition ascii_upper : string -> string :=
  map_string (fun c =>
    let n := nat_of_ascii c in
    if (97 <=? n)%nat && (n <=? 122)%nat then ascii_of_nat (n - 32) else c).

Definition ascii_lower : string -> string :=
  map_string (fun c =>
    let n := nat_of_ascii c in
    if (65 <=? n)%nat && (n <=? 90)%nat then ascii_of_nat (n + 32) else c).

(** A disk: the paths that exist, with their sizes. *)
Definition disk : Type := list (string * N).

Fixpoint lookup (d : disk) (p : string) : option N :=
  match d with
  | [] => None
  | (q, n) :: rest => if p =? q then Some n else lookup rest p
  end.

(** A world over a disk where every source decodes to an image of
    size [dims], unless [broken] names the exception its decoder
    raises, and every save succeeds. *)
Definition world_on (d : disk) (dims : Z * Z) (pymupdf : bool)
  (broken : string -> option exn) : World :=
  let open := fun file =>
    match broken file with Some e => inl e | None => inr dims end in
  {| path_exists := fun p => match lookup d p with Some _ => true | None => false end;
     getsize := lookup d;
     makedirs := fun _ => Some "[Errno 13] Permission denied";
     basename := posix_basename;
     splitext := posix_splitext;
     join := posix_join;
     upper := ascii_upper;
     lower := ascii_lower;
     pdf_converter := pymupdf;
     psd_open := open;
     pdf_render := open;
     image_open := open;
     copy := fun _ => inr tt;
     resize := fun _ _ => inr tt;
     encode := fun _ _ => inr tt;
     saved_size := fun _ => Some 1%N |}.

Definition sound : string -> option exn := fun _ => None.

(** The controller leaves the thread alone. *)
Definition idle : nat -> Reads := fun _ =>
  {| is_running := true; skip_all := false; skip_errors := [];
     skip_all_in_handler := false; elapsed_time := 2 |}.

(** The controller sets [skip_all] while the first file is in the
    [try] block. *)
Definition skip_all_midway : nat -> Reads := fun i =>
  {| is_running := true;
     skip_all := match i with O => false | _ => true end;
     skip_errors := [];
     skip_all_in_handler := true; elapsed_time := 2 |}.

(** [skip_all] is set from the start. *)
Definition skipping : nat -> Reads := fun _ =>
  {| is_running := true; skip_all := true; skip_errors := [];
     skip_all_in_handler := true; elapsed_time := 2 |}.

Definition photos : disk :=
  [("out", 0%N); ("in/big.png", 300%N); ("in/small.jpeg", 100%N);
   ("in/notes.txt", 50%N); ("in/art.psd", 200%N); ("in/doc.pdf", 100%N)].

(** Every library is there and every file decodes. *)
Definition studio : World := world_on photos (1920, 1080)%Z true sound.

(** PyMuPDF is not installed. *)
Definition without_pymupdf : World := world_on photos (1920, 1080)%Z false sound.

(** One file is not an image. *)
Definition corrupt : World :=
  world_on photos (1920, 1080)%Z true
    (fun f => if f =? "in/big.png"
              then Some (OtherException "cannot identify image file")
              else None).

(** The output directory is missing and cannot be made. *)
Definition read_only : World :=
  world_on [("in/big.png", 300%N)] (1920, 1080)%Z true sound.


(** The output folder is the input folder, and converting
    [in/a.jpeg] writes [in/a.png], itself a file of the job: the disk
    as it is up to the first iteration, as it is once that iteration
    has saved, and the two in the order of the iterations. *)
Definition shared_folder : World :=
  world_on [("in", 0%N); ("in/a.jpeg", 100%N); ("in/a.png", 300%N)]
    (1920, 1080)%Z true sound.

Definition shared_folder_overwritten : World :=
  world_on [("in", 0%N); ("in/a.jpeg", 100%N); ("in/a.png", 43011%N)]
    (1920, 1080)%Z true sound.

Definition overwriting : nat -> World := fun i =>
  match i with O => shared_folder | _ => shared_folder_overwritten end.

(** A PSD of 4000 x 2000, and one of 3000 x 2. *)
Definition poster : World := world_on photos (4000, 2000)%Z true sound.

Definition ribbon : World := world_on photos (3000, 2)%Z true sound.

End Example.

(* ================================================================= *)
(** ** The window: what [ImageConverter] hands to the thread *)

(** [sub in s] on strings. *)
Fixpoint contains (sub s : string) : bool :=
  if String.prefix sub s then true
  else match s with
       | EmptyString => false
       | String _ rest => contains sub rest
       end.

(** The preset [toggle_conversion] reads off the text of the
    resolution box: [if "HD" in resolution_text: ... elif "FHD" in
    resolution_text: ... else: ...]. *)
Definition selected_resolution (resolution_text : string) : string :=
  if contains "HD" resolution_text then "HD"
  else if contains "FHD" resolution_text then "FHD"
  else "4K".

(** The items of the resolution box. *)
Definition resolution_items : list string :=
  ["HD (1280x720)"; "FHD (1920x1080)"; "4K (3840x2160)"].

(** [s.lstrip('.')] *)
Fixpoint lstrip_dots (s : string) : string :=
  match s with
  | String "." rest => lstrip_dots rest
  | _ => s
  end.

(** [os.listdir] and [os.path.isfile]. *)
Record Folders : Type := {
  listdir : string -> list string;
  isfile : string -> bool
}.

(** The loop of [select_files_or_folder] over the names of a folder:
    [supported_files]. *)
Fixpoint supported_among (w : World) (d : Folders) (folder : string)
    (names : list string) : list string :=
  match names with
  | [] => []
  | f :: rest =>
      let file_path := join w folder f in
      if isfile d file_path then
        let ext := upper w (lstrip_dots (snd (splitext w f))) in
        if mem ext (map (upper w) SUPPORTED_FORMATS) || (ext =? "PSD")
        then file_path :: supported_among w d folder rest
        else supported_among w d folder rest
      else supported_among w d folder rest
  end.

(** [self.files] after a folder was picked ([[]] with a warning when
    nothing in it is supported). *)
Definition select_folder (w : World) (d : Folders) (folder : string) : list string :=
  supported_among w d folder (listdir d folder).

(** What pressing "Convert" leads to. *)
Inductive Launch : Type :=
| Warned (message : string)
| Refused (message : string)
| Launched (thread : Thread).

(** The "Convert" branch of [toggle_conversion], up to the creation
    of the thread. *)
Definition toggle_conversion (w : World) (selected : list string)
    (output_dir format_text resolution_text : string) : Launch :=
  if match selected with [] => true | _ => false end || (output_dir =? "")
  then Warned "Select files/folder and output folder!"
  else
    match
      (if path_exists w output_dir then None else makedirs w output_dir)
    with
    | Some e => Refused ("Could not create output directory: " ++ e)
    | None =>
        Launched (init w selected output_dir format_text
                    (selected_resolution resolution_text))
    end.

(** [a / b] on floats: a zero divisor raises. *)
Definition truediv (a b : Q) : result Q :=
  if Qeq_bool b 0 then inl ZeroDivisionError else inr (Float.div a b).

(** [compression_ratio] of [on_conversion_complete]:
    [(output_size / input_size) * 100 if input_size > 0 else 0], on
    the two floats of the completion signal. *)
Definition compression_ratio (input_size output_size : Q) : result Q :=
  if Float.gt input_size 0 then
    quotient <- truediv output_size input_size ;;
    inr (Float.mul quotient 100)
  else inr 0.

(* ================================================================= *)
(** ** Vocabulary of the further properties *)

Definition is_error (e : Event) : bool :=
  match e with error_signal _ _ => true | _ => false end.

(** The snapshot of a skipped file, and of a converted one. *)
Definition is_skip_snapshot (e : Event) : bool :=
  match e with progress_signal _ eta _ => eta =? "Skipping..." | _ => false end.

Definition is_conversion_snapshot (e : Event) : bool :=
  match e with
  | progress_signal _ eta _ => negb (eta =? "Skipping...")
  | _ => false
  end.

Definition is_completion (e : Event) : bool :=
  match e with completion_signal _ _ _ _ _ => true | _ => false end.

Definition count_of (p : Event -> bool) (l : list Event) : nat :=
  List.length (filter p l).

(** The percentages of the snapshots, in order of emission. *)
Fixpoint percents (l : list Event) : list Z :=
  match l with
  | [] => []
  | progress_signal p _ _ :: rest => p :: percents rest
  | _ :: rest => percents rest
  end.

(** The kinds of the error signals. *)
Fixpoint error_kinds (l : list Event) : list string :=
  match l with
  | [] => []
  | error_signal _ kind :: rest => kind :: error_kinds rest
  | _ :: rest => error_kinds rest
  end.

(** The kinds an error signal of [run] can carry: the four named
    ones and, for any other exception, the extension of the file. *)
Definition known_kind (kind : string) : bool :=
  mem kind ["DIR_ERROR"; "FILE_NOT_FOUND"; "MEMORY"; "IMPORT_ERROR"]
  || recognized kind.

(** A file that reaches the [try] block, and one that leaves it
    converted. *)
Definition tried (w : World) (rd : Reads) (file : string) : bool :=
  path_exists w file
  && negb (policy_skips rd (extension_of w file))
  && recognized (extension_of w file).

Definition converted (w : World) (t : Thread) (rd : Reads) (file : string) : bool :=
  tried w rd file
  && match attempt w t file with inr _ => true | inl _ => false end.

(** The output path of the last reached file that got to the [try]
    block, [""] when none did. *)
Fixpoint last_tried (w : World) (t : Thread) (reads : nat -> Reads)
    (l : list (nat * string)) (path : string) : string :=
  match l with
  | [] => path
  | (i, file) :: rest =>
      last_tried w t reads rest
        (if tried w (reads i) file then output_path_of w t file else path)
  end.

(** The bytes of a list of reached files. *)
Fixpoint bytes_of (w : World) (l : list (nat * string)) : N :=
  match l with
  | [] => 0%N
  | (_, file) :: rest => (file_size_of w file + bytes_of w rest)%N
  end.

(** A controller that never sets the skip policy, like the window of
    this file, whose error handler only ever calls [stop()]. *)
Definition hands_off (reads : nat -> Reads) : Prop :=
  forall i, skip_all (reads i) = false /\ skip_errors (reads i) = []
            /\ skip_all_in_handler (reads i) = false.

(** A controller that has skip-all set throughout. *)
Definition skips_everything (reads : nat -> Reads) : Prop :=
  forall i, skip_all (reads i) = true.

(** The laws of [os.path] and [str.upper] the folder filter and the
    thread rely on, for the names of one folder: joining and taking
    the base name gives the name back; an extension has one leading
    dot at most; the names of the formats are upper case already. *)
Definition path_laws (w : World) (folder : string) (names : list string) : Prop :=
  (forall f, In f names -> basename w (join w folder f) = f)
  /\ (forall f, In f names ->
        lstrip_dots (snd (splitext w f)) = drop_first (snd (splitext w f)))
  /\ map (upper w) SUPPORTED_FORMATS = SUPPORTED_FORMATS.

(** Each failure emits one error signal or one snapshot of a skip;
    each success one snapshot of a conversion; no iteration emits a
    completion signal. *)
Definition accounted (t t' : Thread) : Prop :=
  (count_of is_error (emitted t') + count_of is_skip_snapshot (emitted t')
     + failure_count t
   = count_of is_error (emitted t) + count_of is_skip_snapshot (emitted t)
     + failure_count t')%nat
  /\ (count_of is_conversion_snapshot (emitted t') + success_count t
      = count_of is_conversion_snapshot (emitted t) + success_count t')%nat
  /\ count_of is_completion (emitted t') = count_of is_completion (emitted t).

(** The invariant behind the range of the percentages: the bytes
    processed and those still to come stay within the total, and the
    index within the list. *)
Definition within_totals (w : World) (t : Thread) (i : nat) (fs : list string) : Prop :=
  (processed_size t + _calculate_total_size w fs <= total_size t)%N
  /\ (i + List.length fs <= List.length (files t))%nat.

(** The invariant behind the order of the percentages. *)
Definition rising (t : Thread) (i : nat) : Prop :=
  StronglySorted Z.le (percents (emitted t))
  /\ Forall (fun p => p <= progress_of t i)%Z (percents (emitted t)).

(** A concrete folder. *)
Module Desk.

Definition shelf : Folders :=
  {| listdir := fun folder =>
       if folder =? "in"
       then ["big.png"; "notes.txt"; "art.psd"; "sub.png"; "scan.jpg"; "small.jpeg"]
       else [];
     isfile := fun p => negb (p =? "in/sub.png") |}.

(** The loop stops being run at the second iteration. *)
Definition stopped_at_1 : nat -> Reads := fun i =>
  {| is_running := (i <? 1)%nat; skip_all := false; skip_errors := [];
     skip_all_in_handler := false; elapsed_time := 2 |}.

End Desk.

(* ================================================================= *)
(** ** Facts on floats *)

Module FloatFacts.

Import Float.
Local Open Scope Q_scope.


Lemma pow2_pos (e : Z) : 0 < 2 ^ e.
Proof. apply Qpower_0_lt. reflexivity. Qed.

Lemma pow2_add (a b : Z) : 2 ^ (a + b) == 2 ^ a * 2 ^ b.
Proof. apply Qpower_plus. discriminate. Qed.

Lemma pow2_succ (a : Z) : 2 ^ (a + 1) == 2 * 2 ^ a.
Proof. rewrite pow2_add. change (2 ^ 1) with 2. ring. Qed.

Lemma pow2_inject (a : Z) : (0 <= a)%Z -> inject_Z (2 ^ a) == 2 ^ a.
Proof. intros. apply (Zpower_Qpower 2 a). assumption. Qed.

Lemma pow2_le (a b : Z) : (a <= b)%Z -> 2 ^ a <= 2 ^ b.
Proof. intros. apply Qpower_le_compat_l; [assumption | discriminate]. Qed.

Lemma Q_as_fraction (x : Q) : x * inject_Z (Zpos (Qden x)) == inject_Z (Qnum x).
Proof.
  destruct x as [n d]. unfold Qeq, Qmult, inject_Z. simpl. 
  rewrite Pos.mul_1_r. ring.
Qed.

Lemma ilog2_spec (x : Q) : 0 < x -> 2 ^ ilog2 x <= x /\ x < 2 ^ (ilog2 x + 1).
Proof.
  intros Hx.
  assert (Hn : (0 < Qnum x)%Z).
  { destruct x as [n d]. unfold Qlt in Hx. simpl in *. lia. }
  pose proof (Q_as_fraction x) as Hf.
  set (n := Qnum x) in *. set (d := Zpos (Qden x)) in *.
  assert (Hd : (0 < d)%Z) by (unfold d; lia).
  destruct (Z.log2_spec n Hn) as [Hn1 Hn2].
  destruct (Z.log2_spec d Hd) as [Hd1 Hd2].
  pose proof (Z.log2_nonneg n) as Ha. pose proof (Z.log2_nonneg d) as Hb.
  set (a := Z.log2 n) in *. set (b := Z.log2 d) in *.
  assert (Qn1 : 2 ^ a <= inject_Z n) by (rewrite <- pow2_inject, <- Zle_Qle; assumption).
  assert (Qn2 : inject_Z n < 2 * 2 ^ a).
  { rewrite <- pow2_succ, <- pow2_inject, <- Zlt_Qlt by lia.
    replace (a + 1)%Z with (Z.succ a) by lia. assumption. }
  assert (Qd1 : 2 ^ b <= inject_Z d) by (rewrite <- pow2_inject, <- Zle_Qle; assumption).
  assert (Qd2 : inject_Z d < 2 * 2 ^ b).
  { rewrite <- pow2_succ, <- pow2_inject, <- Zlt_Qlt by lia.
    replace (b + 1)%Z with (Z.succ b) by lia. assumption. }
  assert (Hk : 2 ^ a == 2 ^ (a - b) * 2 ^ b).
  { rewrite <- pow2_add. replace (a - b + b)%Z with a by lia. reflexivity. }
  pose proof (pow2_pos (a - b)) as Pk. pose proof (pow2_pos b) as Pb.
  pose proof (pow2_pos a) as Pa.
  unfold ilog2. fold n d a b.
  set (k := (a - b)%Z) in *.
  assert (Hup : x < 2 * 2 ^ k).
  { apply Qnot_le_lt. intros Hc.
    assert (2 * 2 ^ k * 2 ^ b <= x * inject_Z d).
    { apply Qle_trans with (x * 2 ^ b).
      - apply Qmult_le_compat_r; [assumption | apply Qlt_le_weak; assumption].
      - rewrite !(Qmult_comm x). apply Qmult_le_compat_r; [assumption | apply Qlt_le_weak; assumption]. }
    rewrite Hf in H. rewrite <- Qmult_assoc, <- Hk in H. lra. }
  assert (Hlo : 2 ^ k <= 2 * x).
  { apply Qnot_lt_le. intros Hc.
    assert (2 * x * inject_Z d < 2 ^ k * (2 * 2 ^ b)).
    { apply Qle_lt_trans with (2 ^ k * inject_Z d).
      - apply Qmult_le_compat_r; [apply Qlt_le_weak; assumption | ].
        apply Qlt_le_weak. lra.
      - rewrite !(Qmult_comm (2 ^ k)). apply Qmult_lt_compat_r; assumption. }
    rewrite <- Qmult_assoc, Hf in H.
    assert (2 ^ k * (2 * 2 ^ b) == 2 * 2 ^ a) by (rewrite Hk; ring).
    rewrite H0 in H. lra. }
  destruct (Qle_bool (2 ^ k) x) eqn:E.
  - apply Qle_bool_iff in E. rewrite pow2_succ. split; assumption.
  - assert (~ 2 ^ k <= x) by (rewrite <- Qle_bool_iff; congruence).
    apply Qnot_le_lt in H.
    replace (k - 1 + 1)%Z with k by lia. split; [|assumption].
    assert (2 ^ k == 2 * 2 ^ (k - 1)).
    { rewrite <- pow2_succ. replace (k - 1 + 1)%Z with k by lia. reflexivity. }
    lra.
Qed.


Lemma floor_bounds (x : Q) : inject_Z (Qfloor x) <= x /\ x < inject_Z (Qfloor x) + 1.
Proof.
  split; [apply Qfloor_le|].
  pose proof (Qlt_floor x) as H. rewrite inject_Z_plus in H. exact H.
Qed.

Lemma round_even_bounds (x : Q) :
  x - (1 # 2) <= inject_Z (round_even x) /\ inject_Z (round_even x) <= x + (1 # 2).
Proof.
  unfold round_even. destruct (floor_bounds x) as [H1 H2].
  destruct (Qcompare_spec (x - inject_Z (Qfloor x)) (1 # 2)) as [E|E|E].
  - destruct (Z.even (Qfloor x)); rewrite ?inject_Z_plus;
      change (inject_Z 1) with 1; split; lra.
  - split; lra.
  - rewrite inject_Z_plus. change (inject_Z 1) with 1. split; lra.
Qed.

Lemma round_even_le (x : Q) (n : Z) : x <= inject_Z n -> (round_even x <= n)%Z.
Proof.
  intros H. destruct (round_even_bounds x) as [_ Hu].
  destruct (Z_le_gt_dec (round_even x) n) as [|Hgt]; [assumption|exfalso].
  assert (n + 1 <= round_even x)%Z by lia.
  rewrite Zle_Qle, inject_Z_plus in H0. change (inject_Z 1) with 1 in H0. lra.
Qed.

(** The scaled significand of a positive value lies in [2^52, 2^53). *)
Lemma significand_range (x : Q) : 0 < x ->
  let e := (ilog2 x - 52)%Z in
  2 ^ 52 <= x / 2 ^ e /\ x / 2 ^ e < 2 ^ 53 /\ x == (x / 2 ^ e) * 2 ^ e.
Proof.
  intros Hx e. destruct (ilog2_spec Hx) as [H1 H2].
  pose proof (pow2_pos e) as Pe.
  assert (He : 2 ^ ilog2 x == 2 ^ 52 * 2 ^ e).
  { rewrite <- pow2_add. unfold e. replace (52 + (ilog2 x - 52))%Z with (ilog2 x) by lia.
    reflexivity. }
  assert (He' : 2 ^ (ilog2 x + 1) == 2 ^ 53 * 2 ^ e).
  { rewrite <- pow2_add. unfold e. replace (53 + (ilog2 x - 52))%Z with (ilog2 x + 1)%Z by lia.
    reflexivity. }
  assert (Hd : x == (x / 2 ^ e) * 2 ^ e) by (field; lra).
  repeat split; [| |exact Hd].
  - apply Qle_shift_div_l; [assumption|]. rewrite <- He. assumption.
  - apply Qlt_shift_div_r; [assumption|]. rewrite <- He'. assumption.
Qed.

Lemma rnd_pos_error (x : Q) : 0 < x ->
  x * (1 - ulp_half) <= rnd_pos x /\ rnd_pos x <= x * (1 + ulp_half).
Proof.
  intros Hx. unfold rnd_pos. rewrite Qred_correct.
  destruct (significand_range Hx) as (H1 & H2 & H3).
  set (e := (ilog2 x - 52)%Z) in *. set (y := x / 2 ^ e) in *.
  destruct (round_even_bounds y) as [R1 R2].
  pose proof (pow2_pos e) as Pe.
  set (m := inject_Z (round_even y)) in *. set (p := 2 ^ e) in *.
  change (2 ^ 52) with (4503599627370496 # 1) in H1.
  assert (Hy : y * ulp_half >= 1 # 2) by (unfold ulp_half; lra).
  clearbody m. clearbody y. clearbody p.
  assert (A1 : (y - y * ulp_half) * p <= m * p) by (apply Qmult_le_compat_r; lra).
  assert (A2 : m * p <= (y + y * ulp_half) * p) by (apply Qmult_le_compat_r; lra).
  unfold ulp_half in *. split; nra.
Qed.


Lemma rnd_proper (x y : Q) : x == y -> rnd x = rnd y.
Proof. intros H. unfold rnd. rewrite (Qred_complete x y H). reflexivity. Qed.

Lemma rnd_of_pos (x : Q) : 0 < x -> rnd x = rnd_pos (Qred x).
Proof.
  intros H. unfold rnd.
  destruct (Qcompare_spec (Qred x) 0) as [E|E|E]; rewrite Qred_correct in E.
  - rewrite E in H. discriminate.
  - exfalso. apply (Qlt_irrefl 0). apply Qlt_trans with x; assumption.
  - reflexivity.
Qed.

Lemma rnd_error (x : Q) : 0 < x ->
  x * (1 - ulp_half) <= rnd x /\ rnd x <= x * (1 + ulp_half).
Proof.
  intros H. rewrite (rnd_of_pos H).
  assert (Hr : 0 < Qred x) by (rewrite Qred_correct; assumption).
  destruct (rnd_pos_error Hr) as [A B]. pose proof (Qred_correct x) as E.
  unfold ulp_half in *. split; lra.
Qed.

Lemma rnd_positive (x : Q) : 0 < x -> 0 < rnd x.
Proof.
  intros H. destruct (rnd_error H) as [A _]. unfold ulp_half in A.
  assert (0 < x * (1 - (1 # 9007199254740992))) by nra. lra.
Qed.

Lemma rnd_le_1 (x : Q) : 0 < x -> x <= 1 -> rnd x <= 1.
Proof.
  intros H0 H1. rewrite (rnd_of_pos H0).
  assert (Hr : 0 < Qred x) by (rewrite Qred_correct; assumption).
  assert (Hr1 : Qred x <= 1) by (rewrite Qred_correct; assumption).
  destruct (ilog2_spec Hr) as [L1 L2].
  destruct (Z_le_gt_dec 0 (ilog2 (Qred x))) as [Hk|Hk].
  - assert (1 <= 2 ^ ilog2 (Qred x)) by (apply (pow2_le Hk)).
    assert (E : x == 1).
    { pose proof (Qred_correct x) as E0.
      set (p := 2 ^ ilog2 (Qred x)) in *. clearbody p. lra. }
    rewrite (Qred_complete x 1 E). vm_compute. discriminate.
  - unfold rnd_pos. rewrite Qred_correct.
    destruct (significand_range Hr) as (S1 & S2 & S3).
    set (e := (ilog2 (Qred x) - 52)%Z) in *.
    set (y := Qred x / 2 ^ e) in *.
    assert (Hm : (round_even y <= 2 ^ 53)%Z).
    { apply round_even_le. change (inject_Z (2 ^ 53)) with (2 ^ 53). lra. }
    rewrite Zle_Qle in Hm. change (inject_Z (2 ^ 53)) with (2 ^ 53) in Hm.
    pose proof (pow2_pos e) as Pe.
    apply Qle_trans with (2 ^ 53 * 2 ^ e).
    + apply Qmult_le_compat_r; [assumption | lra].
    + rewrite <- pow2_add. change 1 with (2 ^ 0). apply pow2_le. unfold e. lia.
Qed.

Lemma to_int_nonneg (x : Q) : 0 <= x -> to_int x = Qfloor x.
Proof.
  intros H. unfold to_int.
  destruct (Qle_bool 0 x) eqn:E; [reflexivity|].
  apply Qle_bool_iff in H. congruence.
Qed.

Lemma gt_true (a b : Q) : gt a b = true <-> b < a.
Proof.
  unfold gt. rewrite negb_true_iff. split; intros H.
  - apply Qnot_le_lt. rewrite <- Qle_bool_iff. congruence.
  - destruct (Qle_bool a b) eqn:E; [|reflexivity].
    apply Qle_bool_iff in E. exfalso. apply (Qlt_irrefl a).
    apply Qle_lt_trans with b; assumption.
Qed.

Lemma gt_false (a b : Q) : gt a b = false <-> a <= b.
Proof.
  unfold gt. rewrite negb_false_iff. apply Qle_bool_iff.
Qed.




Lemma div_error (x y : Q) : 0 < x -> 0 < y ->
  x * (1 - ulp_half) <= div x y * y /\ div x y * y <= x * (1 + ulp_half)
  /\ 0 < div x y.
Proof.
  intros Hx Hy. unfold div.
  assert (Hq : 0 < x / y) by (apply Qlt_shift_div_l; lra).
  destruct (rnd_error Hq) as [A B]. pose proof (rnd_positive Hq) as P.
  assert (E : x / y * y == x) by (field; lra).
  set (a := rnd (x / y)) in *. set (q := x / y) in *. clearbody a q.
  assert (A' : q * (1 - ulp_half) * y <= a * y) by (apply Qmult_le_compat_r; lra).
  assert (B' : a * y <= q * (1 + ulp_half) * y) by (apply Qmult_le_compat_r; lra).
  unfold ulp_half in *. repeat split; try nra; assumption.
Qed.

Lemma derive_by_division (a q v n W H t : Q) :
  0 < W -> 0 < H -> 0 < t -> t * H <= 2 ^ 44 ->
  W * (1 - ulp_half) <= a * H -> a * H <= W * (1 + ulp_half) -> 0 < a ->
  q * a == t ->
  q * (1 - ulp_half) <= v -> v <= q * (1 + ulp_half) ->
  n <= v -> v < n + 1 -> 0 <= n ->
  n * W < t * H + 1 /\ t * H - 1 < (n + 1) * W.
Proof.
  intros HW HH Ht Hb A1 A2 Ha Hq V1 V2 N1 N2 N0.
  change (2 ^ 44) with (17592186044416 # 1) in Hb. unfold ulp_half in *.
  assert (Pq : 0 < q) by nra.
  assert (PaH : 0 < a * H) by nra.
  split.
  - assert (S1 : n * (a * H) <= q * (1 + (1 # 9007199254740992)) * (a * H)).
    { apply Qmult_le_compat_r; lra. }
    assert (S2 : n * (W * (1 - (1 # 9007199254740992))) <= n * (a * H)).
    { rewrite !(Qmult_comm n). apply Qmult_le_compat_r; lra. }
    assert (S3 : q * (a * H) == t * H) by (rewrite <- Hq; ring).
    nra.
  - assert (S1 : q * (1 - (1 # 9007199254740992)) * (a * H) < (n + 1) * (a * H)).
    { apply Qmult_lt_compat_r; lra. }
    assert (S2 : (n + 1) * (a * H) <= (n + 1) * (W * (1 + (1 # 9007199254740992)))).
    { rewrite !(Qmult_comm (n + 1)). apply Qmult_le_compat_r; lra. }
    assert (S3 : q * (a * H) == t * H) by (rewrite <- Hq; ring).
    nra.
Qed.

Lemma derive_by_product (a v n W H t : Q) :
  0 < W -> 0 < H -> 0 < t -> t * W <= 2 ^ 44 ->
  W * (1 - ulp_half) <= a * H -> a * H <= W * (1 + ulp_half) -> 0 < a ->
  t * a * (1 - ulp_half) <= v -> v <= t * a * (1 + ulp_half) ->
  n <= v -> v < n + 1 -> 0 <= n ->
  n * H < t * W + 1 /\ t * W - 1 < (n + 1) * H.
Proof.
  intros HW HH Ht Hb A1 A2 Ha V1 V2 N1 N2 N0.
  change (2 ^ 44) with (17592186044416 # 1) in Hb. unfold ulp_half in *.
  split.
  - assert (S1 : n * H <= t * a * (1 + (1 # 9007199254740992)) * H).
    { apply Qmult_le_compat_r; lra. }
    assert (S2 : t * (a * H) <= t * (W * (1 + (1 # 9007199254740992)))).
    { rewrite !(Qmult_comm t). apply Qmult_le_compat_r; lra. }
    nra.
  - assert (S1 : t * a * (1 - (1 # 9007199254740992)) * H < (n + 1) * H).
    { apply Qmult_lt_compat_r; lra. }
    assert (S2 : t * (W * (1 - (1 # 9007199254740992))) <= t * (a * H)).
    { rewrite !(Qmult_comm t). apply Qmult_le_compat_r; lra. }
    nra.
Qed.

(** [rnd] gives the results of the Standard Library's IEEE 754
    binary64 operations on the quotients and products of the
    resolution rules and of the percentage, for the sides 1 to 500 and
    the multiples of 13 up to 4290. *)
Lemma resolution_arithmetic_is_binary64 :
  forallb
    (fun n =>
       let z := Z.of_nat n in
       let b64 := SFofZ in
       agrees (SFdiv 53 1024 (b64 3840%Z) (b64 z)) (div 3840 (inject_Z z))
       && agrees (SFdiv 53 1024 (b64 2160%Z) (b64 z)) (div 2160 (inject_Z z))
       && agrees (SFmul 53 1024 (b64 z) (SFdiv 53 1024 (b64 3840%Z) (b64 z)))
            (mul (of_int z) (div 3840 (inject_Z z)))
       && agrees (SFdiv 53 1024 (b64 z) (b64 1080%Z)) (div (inject_Z z) 1080)
       && agrees (SFdiv 53 1024 (b64 1920%Z) (SFdiv 53 1024 (b64 z) (b64 1080%Z)))
            (div (of_int 1920%Z) (div (inject_Z z) 1080))
       && agrees (SFmul 53 1024 (b64 1080%Z) (SFdiv 53 1024 (b64 z) (b64 1080%Z)))
            (mul (of_int 1080%Z) (div (inject_Z z) 1080))
       && agrees (SFmul 53 1024 (SFdiv 53 1024 (b64 z) (b64 4000%Z)) (b64 100%Z))
            (mul (div (inject_Z z) 4000) 100))
    (seq 1 500 ++ map (fun k => 13 * k)%nat (seq 1 330)) = true.
Proof. vm_compute. reflexivity. Qed.

End FloatFacts.

(* ================================================================= *)
(** ** Facts on the resolution rules *)

Module Resolution.

Import Float FloatFacts.
Local Open Scope Q_scope.

Lemma inject_Z_pos (n : Z) : (0 < n)%Z -> 0 < inject_Z n.
Proof. intros H. change 0 with (inject_Z 0). rewrite <- Zlt_Qlt. assumption. Qed.

(** Below the minimum the scale factor exceeds 1.0; at or above it
    the quotient rounds to at most 1.0. *)
Lemma quotient_above_1 (m n : Z) : (0 < n < m)%Z -> (m <= 3840)%Z->
  gt (div (inject_Z m) (inject_Z n)) 1 = true.
Proof.
  intros [Hn Hm] Hb. apply gt_true.
  pose proof (inject_Z_pos Hn) as Pn.
  assert (Pm : 0 < inject_Z m) by (apply inject_Z_pos; lia).
  destruct (div_error Pm Pn) as (A & _ & P).
  assert (Hs : inject_Z n + 1 <= inject_Z m).
  { change 1 with (inject_Z 1). rewrite <- inject_Z_plus, <- Zle_Qle. lia. }
  assert (Hm' : inject_Z m <= 3840).
  { change 3840 with (inject_Z 3840). rewrite <- Zle_Qle. lia. }
  set (a := div (inject_Z m) (inject_Z n)) in *. clearbody a.
  set (x := inject_Z n) in *. set (y := inject_Z m) in *. clearbody x y.
  unfold ulp_half in A.
  apply Qnot_le_lt. intros Hc.
  assert (a * x <= 1 * x) by (apply Qmult_le_compat_r; lra).
  nra.
Qed.

Lemma quotient_at_most_1 (m n : Z) : (0 < m <= n)%Z ->
  gt (div (inject_Z m) (inject_Z n)) 1 = false.
Proof.
  intros [Hm Hn]. apply gt_false. unfold div.
  assert (Pn : 0 < inject_Z n) by (apply inject_Z_pos; lia).
  pose proof (inject_Z_pos Hm) as Pm.
  apply rnd_le_1.
  - apply Qlt_shift_div_l; lra.
  - apply Qle_shift_div_r; [assumption|]. rewrite Qmult_1_l, <- Zle_Qle. assumption.
Qed.

Lemma max_1_small (x : Q) : gt x 1 = false -> max 1 x = 1.
Proof. intros H. unfold max. rewrite H. reflexivity. Qed.

(** The nested [max] of the code is the three-argument [max]. *)
Ltac gt_facts :=
  repeat match goal with
  | H : gt _ _ = true |- _ => apply gt_true in H
  | H : gt _ _ = false |- _ => apply gt_false in H
  end.

Lemma nested_max (sw sh : Q) : max (max 1 sw) (max 1 sh) = max3 1 sw sh.
Proof.
  unfold max3, max.
  destruct (gt sw 1) eqn:Ew; destruct (gt sh 1) eqn:Eh;
    repeat match goal with |- context [gt ?a ?b] => destruct (gt a b) eqn:? end;
    try reflexivity; exfalso; gt_facts; lra.
Qed.

Lemma max3_above_1 (sw sh : Q) :
  gt sw 1 = true \/ gt sh 1 = true -> gt (max3 1 sw sh) 1 = true.
Proof.
  intros H. apply gt_true. unfold max3, max.
  destruct (gt sw 1) eqn:Ew;
    repeat match goal with |- context [gt ?a ?b] => destruct (gt a b) eqn:? end;
    destruct H as [H|H]; try discriminate; gt_facts; lra.
Qed.

Lemma raster_scale_spec (width height : Z) : (0 < width)%Z -> (0 < height)%Z ->
  raster_scale width height =
    inr (max3 1 (div 3840 (inject_Z width)) (div 2160 (inject_Z height)))
  /\ gt (max3 1 (div 3840 (inject_Z width)) (div 2160 (inject_Z height))) 1
     = negb ((3840 <=? width)%Z && (2160 <=? height)%Z).
Proof.
  intros Hw Hh. unfold raster_scale.
  replace ((width =? 0)%Z) with false by (symmetry; apply Z.eqb_neq; lia).
  replace ((height =? 0)%Z) with false by (symmetry; apply Z.eqb_neq; lia).
  simpl orb. cbv iota. change (inject_Z 3840) with 3840. change (inject_Z 2160) with 2160.
  rewrite nested_max. split; [reflexivity|].
  destruct (Z.leb_spec 3840 width) as [Lw|Lw]; destruct (Z.leb_spec 2160 height) as [Lh|Lh];
    simpl.
  - unfold max3.
    rewrite (@max_1_small (div 3840 (inject_Z width)))
      by (apply (@quotient_at_most_1 3840 width); lia).
    rewrite (@max_1_small (div 2160 (inject_Z height)))
      by (apply (@quotient_at_most_1 2160 height); lia).
    reflexivity.
  - apply max3_above_1. right. apply (@quotient_above_1 2160 height); lia.
  - apply max3_above_1. left. apply (@quotient_above_1 3840 width); lia.
  - apply max3_above_1. left. apply (@quotient_above_1 3840 width); lia.
Qed.


Lemma decode_raster (w : World) (resolution file ext : string) (file_size : N)
    (width height : Z) :
  ext <> "PSD"%string -> ext <> "PDF"%string ->
  image_open w file = inr (width, height) ->
  (0 < width)%Z -> (0 < height)%Z ->
  decode w resolution file ext file_size =
    if (3840 <=? width)%Z && (2160 <=? height)%Z then
      if (100 * 1024 * 1024 <? file_size)%N
      then bind (copy w file) (fun _ => inr (width, height))
      else inr (width, height)
    else
      let scale := max3 1 (div 3840 (inject_Z width)) (div 2160 (inject_Z height)) in
      bind (resize w file (scaled width height scale))
           (fun _ => inr (scaled width height scale)).
Proof.
  intros Hpsd Hpdf Hopen Hw Hh. unfold decode.
  apply String.eqb_neq in Hpsd, Hpdf. rewrite Hpsd, Hpdf, Hopen. cbn [bind].
  destruct (raster_scale_spec Hw Hh) as [E G]. rewrite E. cbn [bind]. rewrite G.
  destruct ((3840 <=? width)%Z && (2160 <=? height)%Z);
    destruct (100 * 1024 * 1024 <? file_size)%N; reflexivity.
Qed.

(** The PSD branch of [decode]: the composite is resized to the size
    [psd_size] gives, and that is the size of the image. *)
Lemma decode_psd (w : World) (resolution file : string) (file_size : N)
    (width height : Z) :
  psd_open w file = inr (width, height) ->
  decode w resolution file "PSD" file_size =
    bind (psd_size resolution width height)
      (fun new_size => bind (resize w file new_size) (fun _ => inr new_size)).
Proof.
  intros Hopen. unfold decode. rewrite String.eqb_refl, Hopen. reflexivity.
Qed.

(** The three boxes have the ratio 16:9, and their sides are floats. *)
Lemma box_facts (resolution : string) :
  let tw := fst (target_box resolution) in
  let th := snd (target_box resolution) in
  div (inject_Z tw) (inject_Z th) = rnd (16 # 9)
  /\ of_int tw = inject_Z tw /\ of_int th = inject_Z th
  /\ (9 * tw = 16 * th)%Z /\ (0 < tw <= 3840)%Z /\ (0 < th <= 2160)%Z.
Proof.
  unfold target_box.
  destruct (resolution =? "HD")%string; [|destruct (resolution =? "FHD")%string];
    cbn [fst snd]; (split; [vm_compute; reflexivity|]);
    (split; [vm_compute; reflexivity|]); (split; [vm_compute; reflexivity|]); lia.
Qed.

Lemma inject_Z_bound (n b : Z) : (n <= b)%Z -> inject_Z n <= inject_Z b.
Proof. intros. rewrite <- Zle_Qle. assumption. Qed.

(** The float comparison of the aspect ratios decides the exact one. *)
Lemma wide_decision (W H : Z) : (0 < W)%Z -> (0 < H < 2 ^ 32)%Z ->
  gt (div (inject_Z W) (inject_Z H)) (rnd (16 # 9)) = (16 * H <? 9 * W)%Z.
Proof.
  intros HW [HH Hb].
  pose proof (inject_Z_pos HW) as PW. pose proof (inject_Z_pos HH) as PH.
  assert (Bh : inject_Z H <= 4294967296).
  { change 4294967296 with (inject_Z (2 ^ 32)). apply inject_Z_bound. lia. }
  assert (P169 : 0 < 16 # 9) by reflexivity.
  destruct (rnd_error P169) as [C1 C2].
  destruct (Z.ltb_spec (16 * H) (9 * W)) as [L|L].
  - apply gt_true.
    destruct (div_error PW PH) as (A & _ & _).
    assert (Hs : 16 * inject_Z H + 1 <= 9 * inject_Z W).
    { change 16 with (inject_Z 16). change 9 with (inject_Z 9). change 1 with (inject_Z 1).
      rewrite <- !inject_Z_mult, <- inject_Z_plus, <- Zle_Qle. lia. }
    set (a := div (inject_Z W) (inject_Z H)) in *. set (c := rnd (16 # 9)) in *.
    set (w := inject_Z W) in *. set (h := inject_Z H) in *. clearbody a c w h.
    unfold ulp_half in *.
    apply Qnot_le_lt. intros Hc.
    assert (a * h <= c * h) by (apply Qmult_le_compat_r; lra).
    assert (c * h <= (16 # 9) * (1 + (1 # 9007199254740992)) * h)
      by (apply Qmult_le_compat_r; lra).
    nra.
  - apply gt_false.
    destruct (Z.eq_dec (9 * W) (16 * H)) as [E|E].
    + unfold div. apply Qle_lteq. right.
      rewrite (@rnd_proper (inject_Z W / inject_Z H) (16 # 9)); [reflexivity|].
      assert (9 * inject_Z W == 16 * inject_Z H).
      { change 16 with (inject_Z 16). change 9 with (inject_Z 9).
        rewrite <- !inject_Z_mult, E. reflexivity. }
      field_simplify_eq; [|lra]. lra.
    + destruct (div_error PW PH) as (_ & A & _).
      assert (Hs : 9 * inject_Z W + 1 <= 16 * inject_Z H).
      { change 16 with (inject_Z 16). change 9 with (inject_Z 9). change 1 with (inject_Z 1).
        rewrite <- !inject_Z_mult, <- inject_Z_plus, <- Zle_Qle. lia. }
      set (a := div (inject_Z W) (inject_Z H)) in *. set (c := rnd (16 # 9)) in *.
      set (w := inject_Z W) in *. set (h := inject_Z H) in *. clearbody a c w h.
      unfold ulp_half in *.
      apply Qnot_lt_le. intros Hc.
      assert (c * h < a * h) by (apply Qmult_lt_compat_r; lra).
      assert ((16 # 9) * (1 - (1 # 9007199254740992)) * h <= c * h)
        by (apply Qmult_le_compat_r; lra).
      nra.
Qed.


Lemma floor_of_positive (v : Q) : 0 < v ->
  to_int v = Qfloor v /\ 0 <= inject_Z (Qfloor v)
  /\ inject_Z (Qfloor v) <= v /\ v < inject_Z (Qfloor v) + 1.
Proof.
  intros Hv. destruct (floor_bounds v) as [B1 B2].
  split; [apply to_int_nonneg; lra|]. split; [|split; assumption].
  change 0 with (inject_Z 0). rewrite <- Zle_Qle.
  change 0%Z with (Qfloor 0). apply Qfloor_resp_le. lra.
Qed.

(** Integer inequalities read off strict rational ones. *)
Lemma between_integers (n W t H : Z) : (0 < W)%Z ->
  inject_Z n * inject_Z W < inject_Z t * inject_Z H + 1 ->
  inject_Z t * inject_Z H - 1 < (inject_Z n + 1) * inject_Z W ->
  inject_Z t * inject_Z H / inject_Z W - 1 <= inject_Z n
  /\ inject_Z n <= inject_Z t * inject_Z H / inject_Z W.
Proof.
  intros HW A B. pose proof (inject_Z_pos HW) as PW.
  assert (A' : (n * W <= t * H)%Z).
  { assert (n * W < t * H + 1)%Z; [|lia].
    rewrite Zlt_Qlt, inject_Z_plus, !inject_Z_mult. exact A. }
  assert (B' : (t * H <= (n + 1) * W)%Z).
  { assert (t * H - 1 < (n + 1) * W)%Z; [|lia].
    rewrite Zlt_Qlt. unfold Z.sub. rewrite inject_Z_plus, !inject_Z_mult, inject_Z_plus.
    exact B. }
  rewrite Zle_Qle, !inject_Z_mult in A'.
  rewrite Zle_Qle, !inject_Z_mult, inject_Z_plus in B'.
  change (inject_Z 1) with 1 in B'.
  split.
  - apply Qle_minus_iff. 
    assert (inject_Z t * inject_Z H / inject_Z W <= inject_Z n + 1); [|lra].
    apply Qle_shift_div_r; assumption.
  - apply Qle_shift_div_l; assumption.
Qed.

Lemma psd_size_spec (resolution : string) (W H : Z) :
  (0 < W < 2 ^ 32)%Z -> (0 < H < 2 ^ 32)%Z ->
  let Tw := fst (target_box resolution) in
  let Th := snd (target_box resolution) in
  let aspect_ratio := div (inject_Z W) (inject_Z H) in
  exists new_w new_h : Z,
    psd_size resolution W H = inr (new_w, new_h)
    /\ (wider W H Tw Th ->
        new_w = Tw
        /\ new_h = to_int (div (of_int Tw) aspect_ratio)
        /\ within_a_pixel new_h (inject_Z Tw * inject_Z H / inject_Z W))
    /\ (~ wider W H Tw Th ->
        new_h = Th
        /\ new_w = to_int (mul (of_int Th) aspect_ratio)
        /\ within_a_pixel new_w (inject_Z Th * inject_Z W / inject_Z H)).
Proof.
  intros [HW BW] [HH BH] Tw Th aspect_ratio. unfold wider, within_a_pixel.
  subst aspect_ratio.
  destruct (box_facts resolution) as (Ec & Etw & Eth & E169 & [Ptw Btw] & [Pth Bth]).
  fold Tw Th in Ec, Etw, Eth, E169, Ptw, Btw, Pth, Bth.
  pose proof (inject_Z_pos HW) as PW. pose proof (inject_Z_pos HH) as PH.
  pose proof (inject_Z_pos Ptw) as PTw. pose proof (inject_Z_pos Pth) as PTh.
  (* the exact comparison, in integers *)
  assert (Hcmp : inject_Z Tw / inject_Z Th < inject_Z W / inject_Z H
                 <-> (16 * H < 9 * W)%Z).
  { assert (R : inject_Z Tw / inject_Z Th == 16 # 9).
    { assert (9 * inject_Z Tw == 16 * inject_Z Th).
      { change 16 with (inject_Z 16). change 9 with (inject_Z 9).
        rewrite <- !inject_Z_mult, E169. reflexivity. }
      field_simplify_eq; [|lra]. lra. }
    rewrite R.
    assert (Q1 : (16 # 9) < inject_Z W / inject_Z H
                 <-> 16 * inject_Z H < 9 * inject_Z W).
    { split; intros L.
      - assert ((16 # 9) * inject_Z H < inject_Z W / inject_Z H * inject_Z H)
          by (apply Qmult_lt_compat_r; assumption).
        assert (inject_Z W / inject_Z H * inject_Z H == inject_Z W) by (field; lra).
        lra.
      - apply Qlt_shift_div_l; [assumption|]. lra. }
    rewrite Q1. change 16 with (inject_Z 16). change 9 with (inject_Z 9).
    rewrite <- !inject_Z_mult, <- Zlt_Qlt. reflexivity. }
  destruct (div_error PW PH) as (A1 & A2 & Pa).
  unfold psd_size. rewrite (surjective_pairing (target_box resolution)).
  fold Tw Th.
  replace ((H =? 0)%Z) with false by (symmetry; apply Z.eqb_neq; lia).
  rewrite Ec, (wide_decision HW (conj HH BH)).
  set (a := div (inject_Z W) (inject_Z H)) in *.
  destruct (Z.ltb_spec (16 * H) (9 * W)) as [L|L].
  - (* wider than the box *)
    eexists _, _. split; [reflexivity|].
    split; [|intros N; exfalso; apply N, Hcmp, L].
    intros _. split; [reflexivity|]. split; [reflexivity|]. rewrite Etw.
    assert (Pq : 0 < inject_Z Tw / a) by (apply Qlt_shift_div_l; lra).
    destruct (rnd_error Pq) as [V1 V2]. pose proof (rnd_positive Pq) as Pv.
    fold (div (inject_Z Tw) a) in V1, V2, Pv.
    destruct (floor_of_positive Pv) as (Ei & N0 & N1 & N2). rewrite Ei.
    apply between_integers; [assumption| |];
      apply (@derive_by_division a (inject_Z Tw / a) (div (inject_Z Tw) a)
               (inject_Z (Qfloor (div (inject_Z Tw) a)))
               (inject_Z W) (inject_Z H) (inject_Z Tw));
      try assumption; try (field; lra).
    all: change (2 ^ 44) with (inject_Z (2 ^ 44)); rewrite <- inject_Z_mult;
      apply inject_Z_bound; nia.
  - (* not wider *)
    eexists _, _. split; [reflexivity|].
    split; [intros N; apply Hcmp in N; lia|].
    intros _. split; [reflexivity|]. split; [reflexivity|]. rewrite Eth.
    assert (Pp : 0 < inject_Z Th * a) by (apply Qmult_lt_0_compat; assumption).
    destruct (rnd_error Pp) as [V1 V2]. pose proof (rnd_positive Pp) as Pv.
    fold (mul (inject_Z Th) a) in V1, V2, Pv.
    destruct (floor_of_positive Pv) as (Ei & N0 & N1 & N2). rewrite Ei.
    apply between_integers; [assumption| |];
      apply (@derive_by_product a (mul (inject_Z Th) a)
               (inject_Z (Qfloor (mul (inject_Z Th) a)))
               (inject_Z W) (inject_Z H) (inject_Z Th));
      try assumption.
    all: change (2 ^ 44) with (inject_Z (2 ^ 44)); rewrite <- inject_Z_mult;
      apply inject_Z_bound; nia.
Qed.

End Resolution.

(* ================================================================= *)
(** ** Facts on the pre-sort *)

Module Presort.

Section Facts.

Variable w : World.

Lemma insert_perm (x : N * string) (l : list (N * string)) :
  Permutation (x :: l) (insert x l).
Proof.
  induction l as [|y l IH]; simpl; [reflexivity|].
  destruct (fst x <=? fst y)%N; [reflexivity|].
  rewrite perm_swap. constructor. exact IH.
Qed.

Lemma sort_perm (l : list (N * string)) : Permutation l (sort_by_key l).
Proof.
  induction l as [|x l IH]; simpl; [constructor|].
  rewrite <- insert_perm. constructor. exact IH.
Qed.













Lemma total_size_perm (l l' : list string) :
  Permutation l l' -> _calculate_total_size w l = _calculate_total_size w l'.
Proof.
  induction 1; cbn [_calculate_total_size]; lia.
Qed.

Lemma presort_perm (fs : list string) : Permutation fs (presort w fs).
Proof.
  unfold presort. destruct (decorate w fs) as [kfs|] eqn:E; [|reflexivity].
  assert (map snd kfs = fs).
  { revert kfs E. induction fs as [|f fs IH]; intros kfs E; cbn [decorate] in E.
    - injection E as <-. reflexivity.
    - destruct (sort_key w f); [|discriminate].
      destruct (decorate w fs); [|discriminate].
      injection E as <-. cbn [map snd]. f_equal. apply IH. reflexivity. }
  rewrite <- H at 1. apply Permutation_map, sort_perm.
Qed.

End Facts.

End Presort.

(* ================================================================= *)
(** ** Facts on the loop *)

Module Loop.

Local Open Scope string_scope.

Section Facts.

Variable w : World.

(** [body] by cases, in the vocabulary of the statements. *)
Lemma body_cases (i : nat) (file : string) (rd : Reads) (t : Thread) :
  body w i file rd t =
    if negb (is_running rd) then (Break, t)
    else if negb (path_exists w file) then
      if skip_all rd then
        (Continue, emit_skipping i (add_processed 0 (incr_failure t)))
      else
        (Continue, incr_failure
           (emit (error_signal ("File not found: " ++ file) "FILE_NOT_FOUND") t))
    else if policy_skips rd (extension_of w file) then
      match getsize w file with
      | None => (Uncaught, t)
      | Some n => (Continue, incr_failure (emit_skipping i (add_processed n t)))
      end
    else if negb (recognized (extension_of w file)) then (Continue, t)
    else
      let t1 := set_last_output_path (output_path_of w t file) t in
      match attempt w t file with
      | inr _ => (Continue, succeed w i file rd t1)
      | inl e => (Continue, handle w i file rd t1 e)
      end.
Proof.
  unfold body, extension_of, output_path_of, attempt, policy_skips, recognized,
    succeed, handle, file_size_of, extension_of, output_path_of.
  destruct (negb (is_running rd)); [reflexivity|].
  destruct (negb (path_exists w file)); [reflexivity|].
  destruct (splitext w (basename w file)) as [name ext]. cbn [fst snd].
  destruct (mem _ (skip_errors rd) || skip_all rd); [reflexivity|].
  rewrite negb_orb.
  destruct (negb (mem _ SUPPORTED_FORMATS) && negb (_ =? "PSD")); [reflexivity|].
  cbn [psd_resolution set_last_output_path output_dir format_].
  match goal with |- context [process w ?b ?c ?d ?e ?f] =>
    destruct (process w b c d e f) as [[| |]|[]] end;
    try (destruct (skip_all_in_handler rd)); try reflexivity.
  all: match goal with |- context [eta_speed ?a ?b ?c] => destruct (eta_speed a b c) end;
    reflexivity.
Qed.

Lemma same_job_refl (t : Thread) : same_job t t.
Proof. repeat split. Qed.

Lemma same_job_trans (t1 t2 t3 : Thread) :
  same_job t1 t2 -> same_job t2 t3 -> same_job t1 t3.
Proof.
  unfold same_job. intros (A1 & A2 & A3 & A4 & A5) (B1 & B2 & B3 & B4 & B5).
  repeat split; congruence.
Qed.

(** Every case of [body], at once. *)
Ltac body_split rd file :=
  rewrite body_cases;
  destruct (is_running rd) eqn:Erun; cbn [negb];
  [ destruct (path_exists w file) eqn:Eexists; cbn [negb];
    [ destruct (policy_skips rd (extension_of w file)) eqn:Eskip;
      [ destruct (getsize w file) as [size|] eqn:Esize
      | destruct (recognized (extension_of w file)) eqn:Erec; cbn [negb];
        [ cbv zeta;
          match goal with |- context [attempt w ?t file] =>
            destruct (attempt w t file) as [[|msg|msg]|[]] eqn:Eattempt end;
          cbn [handle];
          try (destruct (skip_all_in_handler rd) eqn:Ehandler)
        | ] ]
    | destruct (skip_all rd) eqn:Eall ]
  | ].

Lemma body_same_job (i : nat) (file : string) (rd : Reads) (t : Thread) :
  same_job t (snd (body w i file rd t)).
Proof.
  body_split rd file; cbn [snd]; unfold succeed;
    try (destruct (saved_size w _)); repeat split.
Qed.

(** The counters move by one exactly on the counted files. *)
Lemma body_counts (i : nat) (file : string) (rd : Reads) (t : Thread) :
  match body w i file rd t with
  | (Break, t') => is_running rd = false /\ t' = t
  | (Continue, t') =>
      is_running rd = true
      /\ (success_count t' + failure_count t'
          = success_count t + failure_count t
            + (if counted_at w rd file then 1 else 0))%nat
  | (Uncaught, _) => is_running rd = true
  end.
Proof.
  unfold counted_at.
  body_split rd file; rewrite ?Eexists, ?Eskip, ?Erec; cbn [negb orb];
    unfold succeed; try (destruct (saved_size w _));
    cbn; repeat split; lia.
Qed.

(** Every update of [processed_size] adds zero or the size of the file. *)
Lemma body_processed (i : nat) (file : string) (rd : Reads) (t : Thread) :
  exists d : N,
    processed_size (snd (body w i file rd t)) = (processed_size t + d)%N
    /\ (path_exists w file = false -> d = 0%N)
    /\ (d = 0%N \/ getsize w file = Some d).
Proof.
  unfold file_size_of.
  body_split rd file; unfold succeed, file_size_of; rewrite ?Esize;
    try (destruct (saved_size w _)); try (destruct (getsize w file) eqn:Esize);
    cbn [snd processed_size emit emit_skipping add_processed incr_failure incr_success
         set_last_output_path add_output];
    first
      [ exists 0%N; split; [lia | split; [reflexivity | left; reflexivity]]
      | eexists; split; [reflexivity | split; [congruence | right; reflexivity]] ].
Qed.

(** An advancing iteration adds the size of its file and ends with a
    snapshot of the progress it leaves. *)
Lemma body_advancing (i : nat) (file : string) (rd : Reads) (t : Thread) :
  advancing w t rd file = true ->
  exists t',
    body w i file rd t = (Continue, t')
    /\ processed_size t' = (processed_size t + file_size_of w file)%N
    /\ last_snapshot t' (progress_of t' i).
Proof.
  unfold advancing, last_snapshot. intros H.
  apply andb_true_iff in H as [H Hcase]. apply andb_true_iff in H as [H Hsize].
  apply andb_true_iff in H as [Hrun Hex].
  rewrite body_cases, Hrun, Hex. cbn [negb]. unfold file_size_of.
  destruct (getsize w file) as [n|] eqn:Esize; [clear Hsize|discriminate].
  destruct (policy_skips rd (extension_of w file)).
  - eexists. split; [reflexivity|]. split; [reflexivity|].
    eexists _, _, _. reflexivity.
  - cbn [orb] in Hcase. apply andb_true_iff in Hcase as [Hrec Hcase].
    rewrite Hrec. cbn [negb]. cbv zeta.
    destruct (attempt w t file) as [[|msg|msg]|[]]; cbn [handle];
      try discriminate; rewrite ?Hcase;
      eexists; (split; [reflexivity|]); unfold succeed, file_size_of; rewrite ?Esize;
      try (destruct (saved_size w _));
      (split; [reflexivity|]); eexists _, _, _; reflexivity.
Qed.

Lemma advancing_same_job (t t' : Thread) (rd : Reads) (file : string) :
  output_dir t' = output_dir t -> format_ t' = format_ t ->
  psd_resolution t' = psd_resolution t ->
  advancing w t' rd file = advancing w t rd file.
Proof.
  intros A B C. unfold advancing, attempt, output_path_of.
  rewrite A, B, C. reflexivity.
Qed.

Variable reads : nat -> Reads.

Lemma loop_same_job (fs : list string) : forall (i : nat) (t : Thread),
  same_job t (snd (loop w reads i fs t)).
Proof.
  induction fs as [|file fs IH]; intros i t; cbn [loop]; [apply same_job_refl|].
  pose proof (body_same_job i file (reads i) t) as B.
  destruct (body w i file (reads i) t) as [[| |] t1]; cbn [snd] in *; try exact B.
  eapply same_job_trans; [exact B | apply IH].
Qed.

(** The loop over a longer list goes on from where the shorter stops. *)
Lemma loop_app (fs1 fs2 : list string) : forall (i : nat) (t : Thread),
  loop w reads i (fs1 ++ fs2) t =
    match loop w reads i fs1 t with
    | (Continue, t1) => loop w reads (i + List.length fs1) fs2 t1
    | stopped => stopped
    end.
Proof.
  induction fs1 as [|file fs1 IH]; intros i t; cbn [loop app List.length].
  - rewrite Nat.add_0_r. reflexivity.
  - destruct (body w i file (reads i) t) as [[| |] t1]; try reflexivity.
    rewrite IH. replace (S i + List.length fs1)%nat with (i + S (List.length fs1))%nat by lia.
    reflexivity.
Qed.

Lemma loop_processed (fs : list string) : forall (i : nat) (t : Thread),
  (processed_size t <= processed_size (snd (loop w reads i fs t)))%N.
Proof.
  induction fs as [|file fs IH]; intros i t; cbn [loop]; [cbn; lia|].
  destruct (body_processed i file (reads i) t) as (d & E & _).
  destruct (body w i file (reads i) t) as [[| |] t1]; cbn [snd] in *; try lia.
  specialize (IH (S i) t1). lia.
Qed.

(** The counters after the loop count the counted files it reached. *)
Lemma loop_counts (fs : list string) : forall (i : nat) (t : Thread),
  fst (loop w reads i fs t) <> Uncaught ->
  (success_count (snd (loop w reads i fs t)) + failure_count (snd (loop w reads i fs t))
   = success_count t + failure_count t
     + List.length (filter (counted w reads) (reached reads i fs)))%nat.
Proof.
  induction fs as [|file fs IH]; intros i t; cbn [loop reached]; [cbn; lia|].
  pose proof (body_counts i file (reads i) t) as B.
  destruct (body w i file (reads i) t) as [[| |] t1]; cbn [fst snd].
  - destruct B as [R C]. rewrite R. intros H. cbn [filter]. unfold counted at 1.
    cbn [fst snd]. rewrite (IH (S i) t1 H), C.
    destruct (counted_at w (reads i) file); cbn [List.length]; lia.
  - destruct B as [R ->]. rewrite R. cbn. lia.
  - congruence.
Qed.

Lemma loop_advancing (fs : list string) : forall (i : nat) (t : Thread),
  (forall j f, nth_error fs j = Some f -> advancing w t (reads (i + j)) f = true) ->
  exists t',
    loop w reads i fs t = (Continue, t')
    /\ processed_size t' = (processed_size t + _calculate_total_size w fs)%N
    /\ (fs <> [] -> last_snapshot t' (progress_of t' (i + List.length fs - 1))).
Proof.
  induction fs as [|file fs IH]; intros i t H; cbn [loop _calculate_total_size].
  - exists t. split; [reflexivity|]. split; [lia|]. congruence.
  - destruct (@body_advancing i file (reads i) t) as (t1 & B & P & Snap).
    { specialize (H 0%nat file eq_refl). rewrite Nat.add_0_r in H. exact H. }
    rewrite B.
    destruct (IH (S i) t1) as (t' & L & P' & Snap').
    { intros j f Hj.
      pose proof (body_same_job i file (reads i) t) as J. rewrite B in J.
      destruct J as (_ & J1 & J2 & J3 & _).
      rewrite (@advancing_same_job t t1 _ _ J1 J2 J3).
      replace (S i + j)%nat with (i + S j)%nat by lia. apply H. exact Hj. }
    exists t'. split; [exact L|]. split.
    + rewrite P', P. unfold file_size_of. lia.
    + intros _. destruct fs as [|g fs].
      * cbn [loop] in L. injection L as <-. cbn [List.length].
        replace (i + 1 - 1)%nat with i by lia. exact Snap.
      * replace (i + List.length (file :: g :: fs) - 1)%nat
          with (S i + List.length (g :: fs) - 1)%nat by (cbn [List.length]; lia).
        apply Snap'. discriminate.
Qed.

End Facts.

End Loop.

(* ================================================================= *)
(** ** Facts on the ETA text *)

Module Eta.
Import Float FloatFacts.
Local Open Scope Q_scope.







End Eta.


(* ================================================================= *)
(** ** Facts on [run] *)

Module Run.

Import Loop.
Local Open Scope string_scope.

Section Facts.

Variable w : World.
Variable reads : nat -> Reads.

Lemma run_started (t : Thread) :
  directory_ready w (output_dir t) -> run w reads t = started w reads t.
Proof.
  intros [H|H]; unfold run, started; rewrite H.
  - destruct (loop w reads 0 _ _) as [[| |] t2]; reflexivity.
  - destruct (path_exists w (output_dir t));
      destruct (loop w reads 0 _ _) as [[| |] t2]; reflexivity.
Qed.

Lemma run_refused (t : Thread) (e : string) :
  path_exists w (output_dir t) = false -> makedirs w (output_dir t) = Some e ->
  run w reads t =
    (DirectoryError,
     emit (error_signal ("Failed to create output directory: " ++ e) "DIR_ERROR") t).
Proof. intros A B. unfold run. rewrite A, B. reflexivity. Qed.

Lemma finished_run_started (t : Thread) :
  fst (run w reads t) = Completed \/ fst (run w reads t) = Cancelled ->
  directory_ready w (output_dir t).
Proof.
  unfold run, directory_ready. destruct (path_exists w (output_dir t)); [left; reflexivity|].
  destruct (makedirs w (output_dir t)); [|right; reflexivity].
  cbn [fst]. intros [H|H]; discriminate.
Qed.

Lemma div_self (x : Q) : (0 < x)%Q -> Float.div x x = 1%Q.
Proof.
  intros H. unfold Float.div.
  rewrite (@FloatFacts.rnd_proper (x / x) 1); [reflexivity|]. field. lra.
Qed.

(** All bytes processed, or all files visited when there are no bytes:
    the percentage is 100. *)
Lemma progress_full (t : Thread) (i : nat) :
  processed_size t = total_size t -> S i = List.length (files t) ->
  progress_of t i = 100%Z.
Proof.
  intros P L. unfold progress_of. rewrite P, <- L.
  replace (i + 1)%nat with (S i) by lia.
  destruct (N.ltb_spec 0 (total_size t)) as [H|H];
    (rewrite div_self; [reflexivity|]);
    change 0%Q with (inject_Z 0); rewrite <- Zlt_Qlt; lia.
Qed.

End Facts.

End Run.

(* ================================================================= *)
(** ** Further facts on floats: rounding keeps the order *)

Module FloatOrder.

Import Float FloatFacts.
Local Open Scope Q_scope.

Lemma round_even_near_floor (x : Q) :
  (Qfloor x <= round_even x <= Qfloor x + 1)%Z.
Proof.
  unfold round_even. destruct (Qcompare _ _); [destruct (Z.even _)| |]; lia.
Qed.

Lemma round_even_mono (x y : Q) : x <= y -> (round_even x <= round_even y)%Z.
Proof.
  intros H. pose proof (Qfloor_resp_le _ _ H) as F.
  destruct (Z_le_lt_eq_dec _ _ F) as [L|E].
  - pose proof (round_even_near_floor x). pose proof (round_even_near_floor y). lia.
  - unfold round_even. rewrite <- E.
    destruct (Qcompare_spec (x - inject_Z (Qfloor x)) (1 # 2)) as [A|A|A];
      destruct (Qcompare_spec (y - inject_Z (Qfloor x)) (1 # 2)) as [B|B|B];
      try (destruct (Z.even (Qfloor x))); try lia; exfalso; lra.
Qed.

Lemma round_even_integer (n : Z) : round_even (inject_Z n) = n.
Proof.
  unfold round_even. rewrite Qfloor_Z.
  destruct (Qcompare_spec (inject_Z n - inject_Z n) (1 # 2)) as [A|A|A];
    [exfalso; lra | reflexivity | exfalso; lra].
Qed.

Lemma ilog2_mono (x y : Q) : 0 < x -> x <= y -> (ilog2 x <= ilog2 y)%Z.
Proof.
  intros Hx H. assert (Hy : 0 < y) by lra.
  destruct (ilog2_spec Hx) as [X1 _]. destruct (ilog2_spec Hy) as [_ Y2].
  assert (L : 2 ^ ilog2 x < 2 ^ (ilog2 y + 1)).
  { set (a := 2 ^ ilog2 x) in *. set (b := 2 ^ (ilog2 y + 1)) in *. 
    clearbody a b. lra. }
  apply Qpower_lt_compat_l_inv in L; [lia | reflexivity].
Qed.

(** A rounded positive value stays within its binade. *)
Lemma rnd_pos_binade (x : Q) : 0 < x ->
  2 ^ ilog2 x <= rnd_pos x /\ rnd_pos x <= 2 ^ (ilog2 x + 1).
Proof.
  intros Hx. unfold rnd_pos. rewrite Qred_correct.
  destruct (significand_range Hx) as (S1 & S2 & _).
  set (e := (ilog2 x - 52)%Z) in *. set (y := x / 2 ^ e) in *.
  pose proof (pow2_pos e) as Pe.
  assert (L : (2 ^ 52 <= round_even y)%Z).
  { rewrite <- (round_even_integer (2 ^ 52)). apply round_even_mono.
    change (inject_Z (2 ^ 52)) with (2 ^ 52). exact S1. }
  assert (U : (round_even y <= 2 ^ 53)%Z).
  { apply round_even_le. change (inject_Z (2 ^ 53)) with (2 ^ 53). lra. }
  rewrite Zle_Qle in L, U.
  change (inject_Z (2 ^ 52)) with (2 ^ 52) in L.
  change (inject_Z (2 ^ 53)) with (2 ^ 53) in U.
  split.
  - apply Qle_trans with (2 ^ 52 * 2 ^ e).
    + rewrite <- pow2_add. apply pow2_le. unfold e. lia.
    + apply Qmult_le_compat_r; [exact L | lra].
  - apply Qle_trans with (2 ^ 53 * 2 ^ e).
    + apply Qmult_le_compat_r; [exact U | lra].
    + rewrite <- pow2_add. apply pow2_le. unfold e. lia.
Qed.

Lemma rnd_pos_mono (x y : Q) : 0 < x -> x <= y -> rnd_pos x <= rnd_pos y.
Proof.
  intros Hx H. assert (Hy : 0 < y) by lra.
  pose proof (ilog2_mono Hx H) as K.
  destruct (Z_le_lt_eq_dec _ _ K) as [L|E].
  - destruct (rnd_pos_binade Hx) as [_ A]. destruct (rnd_pos_binade Hy) as [B _].
    apply Qle_trans with (2 ^ (ilog2 x + 1)); [exact A|].
    apply Qle_trans with (2 ^ ilog2 y); [|exact B].
    apply pow2_le. lia.
  - unfold rnd_pos. rewrite !Qred_correct, <- E.
    set (e := (ilog2 x - 52)%Z). pose proof (pow2_pos e) as Pe.
    apply Qmult_le_compat_r; [|lra].
    rewrite <- Zle_Qle. apply round_even_mono.
    apply Qmult_le_compat_r; [exact H|]. apply Qinv_le_0_compat. lra.
Qed.

Lemma rnd_zero (x : Q) : x == 0 -> rnd x = 0.
Proof. intros H. rewrite (rnd_proper H). reflexivity. Qed.

(** [rnd] is monotone on the non-negative values. *)
Lemma rnd_mono (x y : Q) : 0 <= x -> x <= y -> rnd x <= rnd y.
Proof.
  intros Hx H. destruct (Qlt_le_dec 0 x) as [P|Z0].
  - assert (Py : 0 < y) by lra.
    rewrite (rnd_of_pos P), (rnd_of_pos Py).
    apply rnd_pos_mono; rewrite !Qred_correct; assumption.
  - rewrite (@rnd_zero x) by lra.
    destruct (Qlt_le_dec 0 y) as [Py|Zy].
    + apply Qlt_le_weak, rnd_positive, Py.
    + rewrite (@rnd_zero y) by lra. lra.
Qed.

Lemma rnd_nonneg (x : Q) : 0 <= x -> 0 <= rnd x.
Proof. intros H. change 0 with (rnd 0) at 1. apply rnd_mono; lra. Qed.

(** An integer below 2^53 is a float. *)
Lemma of_int_exact (n : Z) : (0 <= n < 2 ^ 53)%Z -> of_int n = inject_Z n.
Proof.
  intros [L U]. unfold of_int.
  destruct (Z.eq_dec n 0) as [->|N]; [reflexivity|].
  assert (P : 0 < inject_Z n) by (apply Resolution.inject_Z_pos; lia).
  rewrite (rnd_of_pos P).
  assert (R : Qred (inject_Z n) = inject_Z n).
  { apply Qcanon.Qred_identity. cbn. apply Z.gcd_1_r. }
  rewrite R. unfold rnd_pos.
  destruct (ilog2_spec P) as [K1 K2].
  assert (K : (ilog2 (inject_Z n) <= 52)%Z).
  { assert (2 ^ ilog2 (inject_Z n) < 2 ^ 53).
    { apply Qle_lt_trans with (inject_Z n); [exact K1|].
      change (2 ^ 53) with (inject_Z (2 ^ 53)). rewrite <- Zlt_Qlt. exact U. }
    apply Qpower_lt_compat_l_inv in H; [lia | reflexivity]. }
  set (e := (ilog2 (inject_Z n) - 52)%Z) in *.
  assert (E : inject_Z n / 2 ^ e == inject_Z (n * 2 ^ (- e))).
  { rewrite inject_Z_mult, pow2_inject by lia. rewrite Qpower_opp.
    unfold Qdiv. reflexivity. }
  assert (V : inject_Z (round_even (inject_Z n / 2 ^ e)) * 2 ^ e == inject_Z n).
  { assert (round_even (inject_Z n / 2 ^ e) = (n * 2 ^ (- e))%Z) as ->.
    { rewrite <- (round_even_integer (n * 2 ^ (- e))).
      unfold round_even. rewrite !(Qfloor_comp _ _ E).
      rewrite E. reflexivity. }
    rewrite <- E. field. pose proof (pow2_pos e). lra. }
  rewrite (Qred_complete _ _ V). exact R.
Qed.

Lemma to_int_mono (x y : Q) : 0 <= x -> x <= y -> (to_int x <= to_int y)%Z.
Proof.
  intros Hx H. rewrite !to_int_nonneg by lra. apply Qfloor_resp_le. exact H.
Qed.

End FloatOrder.


(* ================================================================= *)
(** ** Further facts on the loop: the signals it emits *)

Module Trace.

Local Open Scope string_scope.

Section Facts.

Variable w : World.

Ltac split_body rd file :=
  rewrite Loop.body_cases;
  destruct (is_running rd) eqn:Erun; cbn [negb];
  [ destruct (path_exists w file) eqn:Eexists; cbn [negb];
    [ destruct (policy_skips rd (extension_of w file)) eqn:Eskip;
      [ destruct (getsize w file) as [size|] eqn:Esize
      | destruct (recognized (extension_of w file)) eqn:Erec; cbn [negb];
        [ cbv zeta;
          match goal with |- context [attempt w ?t file] =>
            destruct (attempt w t file) as [[|msg|msg]|[]] eqn:Eattempt end;
          cbn [handle];
          try (destruct (skip_all_in_handler rd) eqn:Ehandler)
        | ] ]
    | destruct (skip_all rd) eqn:Eall ]
  | ].

Lemma count_snoc (p : Event -> bool) (l : list Event) (e : Event) :
  count_of p (l ++ [e]) = (count_of p l + (if p e then 1 else 0))%nat.
Proof.
  unfold count_of. rewrite filter_app, length_app. cbn [filter].
  destruct (p e); reflexivity.
Qed.

Lemma percents_app (l1 l2 : list Event) :
  percents (l1 ++ l2) = (percents l1 ++ percents l2)%list.
Proof.
  induction l1 as [|[p eta sp| |] l1 IH]; cbn [percents app]; rewrite ?IH; reflexivity.
Qed.

Lemma error_kinds_app (l1 l2 : list Event) :
  error_kinds (l1 ++ l2) = (error_kinds l1 ++ error_kinds l2)%list.
Proof.
  induction l1 as [|[p eta sp| |] l1 IH]; cbn [error_kinds app]; rewrite ?IH; reflexivity.
Qed.

(** The ETA text of a converted file is never the text of a skip. *)
Lemma eta_is_not_skipping (t : Thread) (progress : Z) (elapsed : Q) :
  (fst (eta_speed t progress elapsed) =? "Skipping...") = false.
Proof.
  unfold eta_speed, format_eta.
  destruct (_ && _); [|reflexivity]. cbn [fst].
  destruct (0 <? progress)%Z; [|reflexivity].
  destruct (Float.lt _ _); reflexivity.
Qed.

(** The percentage reads the file list and the two byte counts only. *)
Lemma progress_of_ext (t t' : Thread) (i : nat) :
  files t' = files t -> total_size t' = total_size t ->
  processed_size t' = processed_size t -> progress_of t' i = progress_of t i.
Proof. intros A B C. unfold progress_of. rewrite A, B, C. reflexivity. Qed.

(** What one iteration emits: nothing, or one snapshot of the progress
    it leaves, or one error signal of a known kind. *)
Lemma body_emits (i : nat) (file : string) (rd : Reads) (t : Thread) :
  exists evs,
    emitted (snd (body w i file rd t)) = (emitted t ++ evs)%list
    /\ (evs = []
        \/ (exists eta sp,
              evs = [progress_signal (progress_of (snd (body w i file rd t)) i) eta sp])
        \/ (exists msg kind, evs = [error_signal msg kind] /\ known_kind kind = true)).
Proof.
  split_body rd file; cbn [snd]; unfold succeed, emit_skipping;
    try (destruct (saved_size w _));
    cbn [emitted emit incr_failure incr_success add_processed add_output
         set_last_output_path];
    first
      [ exists []; split; [symmetry; apply app_nil_r | left; reflexivity]
      | eexists; split; [reflexivity|]; right; left; eexists _, _; reflexivity
      | eexists; split; [reflexivity|]; right; right; eexists _, _;
        split; [reflexivity|]; unfold known_kind; rewrite ?Erec, ?orb_true_r; reflexivity ].
Qed.

Lemma body_accounted (i : nat) (file : string) (rd : Reads) (t : Thread) :
  accounted t (snd (body w i file rd t)).
Proof.
  unfold accounted.
  split_body rd file; cbn [snd]; unfold succeed, emit_skipping;
    try (destruct (saved_size w _));
    cbn [emitted emit incr_failure incr_success add_processed add_output
         set_last_output_path success_count failure_count];
    rewrite ?count_snoc; cbn [is_error is_skip_snapshot is_conversion_snapshot
                              is_completion];
    rewrite ?eta_is_not_skipping; cbn; lia.
Qed.

Lemma accounted_refl (t : Thread) : accounted t t.
Proof. repeat split. Qed.

Lemma accounted_trans (t1 t2 t3 : Thread) :
  accounted t1 t2 -> accounted t2 t3 -> accounted t1 t3.
Proof. unfold accounted. intros (A & B & C) (A' & B' & C'). repeat split; lia. Qed.

(** *** The percentage *)

Import Float FloatFacts FloatOrder.

Lemma percent_of_fraction (a b : Z) : (0 <= a <= b)%Z -> (0 < b)%Z ->
  (0 <= to_int (mul (div (inject_Z a) (inject_Z b)) 100) <= 100)%Z.
Proof.
  intros [A0 AB] B0.
  assert (Pb : (0 < inject_Z b)%Q) by (apply Resolution.inject_Z_pos; exact B0).
  assert (Q0 : (0 <= inject_Z a / inject_Z b)%Q).
  { apply Qle_shift_div_l; [exact Pb|]. rewrite Qmult_0_l.
    change 0%Q with (inject_Z 0). rewrite <- Zle_Qle. exact A0. }
  assert (Q1 : (inject_Z a / inject_Z b <= 1)%Q).
  { apply Qle_shift_div_r; [exact Pb|]. rewrite Qmult_1_l, <- Zle_Qle. exact AB. }
  assert (R0 : (0 <= div (inject_Z a) (inject_Z b))%Q) by (apply rnd_nonneg; exact Q0).
  assert (R1 : (div (inject_Z a) (inject_Z b) <= 1)%Q).
  { unfold div. change 1%Q with (rnd 1). apply rnd_mono; assumption. }
  set (q := div (inject_Z a) (inject_Z b)) in *. clearbody q.
  assert (M0 : (0 <= mul q 100)%Q) by (apply rnd_nonneg; lra).
  assert (M1 : (mul q 100 <= 100)%Q).
  { unfold mul. change 100%Q with (rnd 100) at 2. apply rnd_mono; lra. }
  rewrite to_int_nonneg by exact M0. split.
  - change 0%Z with (Qfloor 0). apply Qfloor_resp_le. exact M0.
  - change 100%Z with (Qfloor 100). apply Qfloor_resp_le. exact M1.
Qed.

Lemma percent_mono (a a' b : Z) : (0 <= a <= a')%Z -> (0 <= b)%Z ->
  (to_int (mul (div (inject_Z a) (inject_Z b)) 100)
   <= to_int (mul (div (inject_Z a') (inject_Z b)) 100))%Z.
Proof.
  intros [A0 AA] B0.
  assert (Ia : (0 <= inject_Z a)%Q) by (change 0%Q with (inject_Z 0); rewrite <- Zle_Qle; lia).
  assert (Iaa : (inject_Z a <= inject_Z a')%Q) by (rewrite <- Zle_Qle; lia).
  assert (Iinv : (0 <= / inject_Z b)%Q).
  { apply Qinv_le_0_compat. change 0%Q with (inject_Z 0). rewrite <- Zle_Qle. lia. }
  assert (Q0 : (0 <= inject_Z a / inject_Z b)%Q).
  { unfold Qdiv. apply Qmult_le_0_compat; assumption. }
  assert (Q1 : (inject_Z a / inject_Z b <= inject_Z a' / inject_Z b)%Q).
  { unfold Qdiv. apply Qmult_le_compat_r; assumption. }
  assert (R0 : (0 <= div (inject_Z a) (inject_Z b))%Q) by (apply rnd_nonneg; exact Q0).
  assert (R1 : (div (inject_Z a) (inject_Z b) <= div (inject_Z a') (inject_Z b))%Q)
    by (apply rnd_mono; assumption).
  apply to_int_mono.
  - apply rnd_nonneg. lra.
  - apply rnd_mono; lra.
Qed.

(** Within the totals, the percentage lies between 0 and 100. *)
Lemma progress_in_range (t : Thread) (i : nat) :
  (processed_size t <= total_size t)%N -> (i < List.length (files t))%nat ->
  (0 <= progress_of t i <= 100)%Z.
Proof.
  intros P L. unfold progress_of.
  destruct (N.ltb_spec 0 (total_size t)) as [H|H]; apply percent_of_fraction; lia.
Qed.

(** More bytes, or a later file, never lower the percentage. *)
Lemma progress_mono (t t' : Thread) (i i' : nat) :
  files t' = files t -> total_size t' = total_size t ->
  (processed_size t <= processed_size t')%N -> (i <= i')%nat ->
  (progress_of t i <= progress_of t' i')%Z.
Proof.
  intros F T P I. unfold progress_of. rewrite F, T.
  destruct (0 <? total_size t)%N; apply percent_mono; lia.
Qed.

Variable reads : nat -> Reads.

Lemma loop_accounted (fs : list string) : forall (i : nat) (t : Thread),
  accounted t (snd (loop w reads i fs t)).
Proof.
  induction fs as [|file fs IH]; intros i t; cbn [loop]; [apply accounted_refl|].
  pose proof (body_accounted i file (reads i) t) as B.
  destruct (body w i file (reads i) t) as [[| |] t1]; cbn [snd] in *; try exact B.
  eapply accounted_trans; [exact B | apply IH].
Qed.

(** The loop only appends to the signals, and no completion signal. *)
Lemma loop_emits (fs : list string) : forall (i : nat) (t : Thread),
  exists evs,
    emitted (snd (loop w reads i fs t)) = (emitted t ++ evs)%list
    /\ Forall (fun k => known_kind k = true) (error_kinds evs).
Proof.
  induction fs as [|file fs IH]; intros i t; cbn [loop].
  - exists []. split; [symmetry; apply app_nil_r | constructor].
  - destruct (body_emits i file (reads i) t) as (evs & E & K).
    assert (K' : Forall (fun k => known_kind k = true) (error_kinds evs)).
    { destruct K as [-> | [(eta & sp & ->) | (msg & kind & -> & Hk)]];
        cbn [error_kinds]; repeat constructor. exact Hk. }
    destruct (body w i file (reads i) t) as [[| |] t1]; cbn [snd] in *;
      try (exists evs; split; [exact E | exact K']).
    destruct (IH (S i) t1) as (evs' & E' & K'').
    exists (evs ++ evs')%list. split.
    + rewrite E', E, app_assoc. reflexivity.
    + rewrite error_kinds_app. apply Forall_app. split; assumption.
Qed.

Lemma loop_percents_in_range (fs : list string) : forall (i : nat) (t : Thread),
  within_totals w t i fs ->
  Forall (fun p => 0 <= p <= 100)%Z (percents (emitted t)) ->
  Forall (fun p => 0 <= p <= 100)%Z (percents (emitted (snd (loop w reads i fs t)))).
Proof.
  induction fs as [|file fs IH]; intros i t [B1 B2] H; cbn [loop]; [exact H|].
  cbn [_calculate_total_size List.length] in B1, B2.
  destruct (Loop.body_processed w i file (reads i) t) as (d & P & _ & D).
  pose proof (Loop.body_same_job w i file (reads i) t) as (Jf & _ & _ & _ & Jt).
  destruct (body_emits i file (reads i) t) as (evs & E & K).
  assert (Hd : (d <= match getsize w file with Some n => n | None => 0 end)%N).
  { destruct D as [-> | ->]; lia. }
  assert (R : (0 <= progress_of (snd (body w i file (reads i) t)) i <= 100)%Z).
  { apply progress_in_range; rewrite ?Jf, ?Jt, ?P; lia. }
  assert (H1 : Forall (fun p => 0 <= p <= 100)%Z
                 (percents (emitted (snd (body w i file (reads i) t))))).
  { rewrite E, percents_app. apply Forall_app. split; [exact H|].
    destruct K as [-> | [(eta & sp & ->) | (msg & kind & -> & _)]];
      cbn [percents]; repeat constructor; apply R. }
  destruct (body w i file (reads i) t) as [[| |] t1]; cbn [snd] in *; try exact H1.
  apply IH; [|exact H1]. split; rewrite ?Jf, ?Jt, ?P; lia.
Qed.

Lemma sorted_snoc (l : list Z) (p : Z) :
  StronglySorted Z.le l -> Forall (fun q => q <= p)%Z l ->
  StronglySorted Z.le (l ++ [p]).
Proof.
  induction 1 as [|q l Srt IH A]; intros F; cbn [app].
  - repeat constructor.
  - inversion F as [|? ? Fq Fl]; subst. constructor; [apply IH, Fl|].
    apply Forall_app. split; [exact A | repeat constructor; exact Fq].
Qed.

Lemma loop_rising (fs : list string) : forall (i : nat) (t : Thread),
  rising t i ->
  StronglySorted Z.le (percents (emitted (snd (loop w reads i fs t)))).
Proof.
  induction fs as [|file fs IH]; intros i t [Srt F]; cbn [loop]; [exact Srt|].
  destruct (Loop.body_processed w i file (reads i) t) as (d & P & _).
  pose proof (Loop.body_same_job w i file (reads i) t) as (Jf & _ & _ & _ & Jt).
  destruct (body_emits i file (reads i) t) as (evs & E & K).
  set (t1 := snd (body w i file (reads i) t)) in *.
  assert (M : forall j, (i <= j)%nat -> (progress_of t i <= progress_of t1 j)%Z).
  { intros j Hj. apply progress_mono; try assumption. rewrite P. lia. }
  assert (F1 : forall j, (i <= j)%nat ->
                 Forall (fun p => p <= progress_of t1 j)%Z (percents (emitted t))).
  { intros j Hj. eapply Forall_impl; [|exact F]. cbn beta. intros p Hp.
    specialize (M j Hj). lia. }
  assert (R : rising t1 (S i)).
  { unfold rising. rewrite E, percents_app.
    destruct K as [-> | [(eta & sp & ->) | (msg & kind & -> & _)]]; cbn [percents];
      rewrite ?app_nil_r.
    - split; [exact Srt | apply F1; lia].
    - split.
      + apply sorted_snoc; [exact Srt | apply F1; lia].
      + apply Forall_app. split; [apply F1; lia|]. repeat constructor.
        apply progress_mono; try reflexivity; lia.
    - split; [exact Srt | apply F1; lia]. }
  subst t1.
  destruct (body w i file (reads i) t) as [[| |] t1]; cbn [snd] in *;
    try (exact (proj1 R)).
  apply IH. exact R.
Qed.

(** *** The last output path *)

Lemma last_tried_same_job (t t' : Thread) (l : list (nat * string)) :
  output_dir t' = output_dir t -> format_ t' = format_ t ->
  forall path, last_tried w t' reads l path = last_tried w t reads l path.
Proof.
  intros A B. induction l as [|[i file] l IH]; intros path; cbn [last_tried];
    [reflexivity|].
  rewrite IH. unfold output_path_of. rewrite A, B. reflexivity.
Qed.

Lemma body_last_output (i : nat) (file : string) (rd : Reads) (t : Thread) :
  fst (body w i file rd t) = Continue ->
  last_output_path (snd (body w i file rd t))
  = if tried w rd file then output_path_of w t file else last_output_path t.
Proof.
  unfold tried.
  split_body rd file; rewrite ?Eexists, ?Eskip, ?Erec; cbn [fst snd negb andb];
    unfold succeed; try (destruct (saved_size w _)); try discriminate;
    intros _; reflexivity.
Qed.

Lemma loop_last_output (fs : list string) : forall (i : nat) (t : Thread),
  fst (loop w reads i fs t) <> Uncaught ->
  last_output_path (snd (loop w reads i fs t))
  = last_tried w t reads (reached reads i fs) (last_output_path t).
Proof.
  induction fs as [|file fs IH]; intros i t; cbn [loop reached]; [reflexivity|].
  pose proof (Loop.body_counts w i file (reads i) t) as C.
  pose proof (body_last_output i file (reads i) t) as L.
  pose proof (Loop.body_same_job w i file (reads i) t) as (_ & Jo & Jf & _).
  destruct (body w i file (reads i) t) as [[| |] t1]; cbn [fst snd] in *.
  - destruct C as [R _]. rewrite R. intros H. cbn [last_tried].
    rewrite (IH (S i) t1 H), (L eq_refl).
    apply last_tried_same_job; assumption.
  - destruct C as [R ->]. rewrite R. reflexivity.
  - congruence.
Qed.

(** *** A controller that leaves the skip policy alone *)

Lemma converted_same_job (t t' : Thread) (rd : Reads) (file : string) :
  output_dir t' = output_dir t -> format_ t' = format_ t ->
  psd_resolution t' = psd_resolution t ->
  converted w t' rd file = converted w t rd file.
Proof.
  intros A B C. unfold converted, attempt, output_path_of. rewrite A, B, C. reflexivity.
Qed.

Lemma body_hands_off (i : nat) (file : string) (rd : Reads) (t : Thread) :
  skip_all rd = false -> skip_errors rd = [] -> skip_all_in_handler rd = false ->
  fst (body w i file rd t) <> Uncaught
  /\ processed_size (snd (body w i file rd t))
     = (processed_size t + (if is_running rd && converted w t rd file
                            then file_size_of w file else 0))%N
  /\ success_count (snd (body w i file rd t))
     = (success_count t + (if is_running rd && converted w t rd file then 1 else 0))%nat
  /\ count_of is_skip_snapshot (emitted (snd (body w i file rd t)))
     = count_of is_skip_snapshot (emitted t).
Proof.
  intros A B C.
  assert (P : policy_skips rd (extension_of w file) = false).
  { unfold policy_skips. rewrite A, B. reflexivity. }
  unfold converted, tried.
  split_body rd file; rewrite ?Eexists, ?Eskip, ?Erec, ?Eattempt;
    cbn [fst snd negb andb]; try congruence;
    unfold succeed; try (destruct (saved_size w _));
    cbn [emitted emit incr_failure incr_success add_processed add_output
         set_last_output_path success_count processed_size];
    rewrite ?count_snoc; cbn [is_skip_snapshot]; rewrite ?eta_is_not_skipping;
    (split; [discriminate|]); (split; [lia|]); (split; [lia|]); cbn; lia.
Qed.

Lemma loop_hands_off (fs : list string) : hands_off reads ->
  forall (i : nat) (t : Thread),
    fst (loop w reads i fs t) <> Uncaught
    /\ processed_size (snd (loop w reads i fs t))
       = (processed_size t
          + bytes_of w (filter (fun x => converted w t (reads (fst x)) (snd x))
                          (reached reads i fs)))%N
    /\ success_count (snd (loop w reads i fs t))
       = (success_count t
          + List.length (filter (fun x => converted w t (reads (fst x)) (snd x))
                           (reached reads i fs)))%nat
    /\ count_of is_skip_snapshot (emitted (snd (loop w reads i fs t)))
       = count_of is_skip_snapshot (emitted t).
Proof.
  intros H. induction fs as [|file fs IH]; intros i t; cbn [loop reached].
  - cbn. repeat split; try lia. discriminate.
  - destruct (H i) as (A & B & C).
    destruct (@body_hands_off i file (reads i) t A B C) as (U & P & Sc & K).
    pose proof (Loop.body_counts w i file (reads i) t) as Cn.
    pose proof (Loop.body_same_job w i file (reads i) t) as (_ & Jo & Jf & Jr & _).
    destruct (body w i file (reads i) t) as [[| |] t1]; cbn [fst snd] in *.
    + destruct Cn as [R _]. rewrite R in *. cbn [andb filter fst snd] in *.
      destruct (IH (S i) t1) as (U' & P' & Sc' & K').
      assert (E : filter (fun x => converted w t1 (reads (fst x)) (snd x))
                    (reached reads (S i) fs)
                  = filter (fun x => converted w t (reads (fst x)) (snd x))
                      (reached reads (S i) fs)).
      { apply filter_ext. intros x. apply converted_same_job; assumption. }
      rewrite E in P', Sc'.
      split; [exact U'|]. rewrite P', Sc', K', P, Sc, K.
      destruct (converted w t (reads i) file); cbn [bytes_of List.length];
        repeat split; lia.
    + destruct Cn as [R ->]. rewrite R. cbn. repeat split; try lia. discriminate.
    + congruence.
Qed.

(** *** A controller that skips everything *)

Lemma body_skips_all (i : nat) (file : string) (rd : Reads) (t : Thread) :
  skip_all rd = true -> (path_exists w file = true -> getsize w file <> None) ->
  fst (body w i file rd t) <> Uncaught
  /\ success_count (snd (body w i file rd t)) = success_count t
  /\ count_of is_error (emitted (snd (body w i file rd t)))
     = count_of is_error (emitted t)
  /\ processed_size (snd (body w i file rd t))
     = (processed_size t + (if is_running rd && path_exists w file
                            then file_size_of w file else 0))%N.
Proof.
  intros A G.
  assert (P : policy_skips rd (extension_of w file) = true).
  { unfold policy_skips. rewrite A. apply orb_true_r. }
  unfold file_size_of.
  split_body rd file; rewrite ?Esize; try congruence;
    cbn [fst snd andb emitted emit emit_skipping incr_failure add_processed
         success_count processed_size];
    rewrite ?count_snoc; cbn [is_error];
    try (exfalso; apply (G eq_refl); reflexivity);
    (split; [discriminate|]); (split; [reflexivity|]); split; lia.
Qed.

Lemma loop_skips_all (fs : list string) : skips_everything reads ->
  (forall f, In f fs -> path_exists w f = true -> getsize w f <> None) ->
  forall (i : nat) (t : Thread),
    fst (loop w reads i fs t) <> Uncaught
    /\ success_count (snd (loop w reads i fs t)) = success_count t
    /\ count_of is_error (emitted (snd (loop w reads i fs t)))
       = count_of is_error (emitted t)
    /\ processed_size (snd (loop w reads i fs t))
       = (processed_size t
          + bytes_of w (filter (fun x => path_exists w (snd x)) (reached reads i fs)))%N.
Proof.
  intros H. induction fs as [|file fs IH]; intros G i t; cbn [loop reached].
  - cbn. repeat split; try lia. discriminate.
  - destruct (@body_skips_all i file (reads i) t (H i)) as (U & Sc & K & P).
    { apply G. left. reflexivity. }
    pose proof (Loop.body_counts w i file (reads i) t) as Cn.
    destruct (body w i file (reads i) t) as [[| |] t1]; cbn [fst snd] in *.
    + destruct Cn as [R _]. rewrite R in *. cbn [andb filter fst snd] in *.
      destruct (IH (fun f Hf => G f (or_intror Hf)) (S i) t1) as (U' & Sc' & K' & P').
      split; [exact U'|]. rewrite P', Sc', K', P, Sc, K.
      destruct (path_exists w file); cbn [bytes_of]; repeat split; lia.
    + destruct Cn as [R ->]. rewrite R. cbn. repeat split; try lia. discriminate.
    + congruence.
Qed.

(** *** Cancellation *)

Lemma loop_cancelled (fs1 fs2 : list string) (i : nat) (t : Thread) :
  fst (loop w reads i fs1 t) = Continue -> fs2 <> [] ->
  is_running (reads (i + List.length fs1)%nat) = false ->
  loop w reads i (fs1 ++ fs2) t = (Break, snd (loop w reads i fs1 t)).
Proof.
  intros C N R. rewrite Loop.loop_app.
  destruct (loop w reads i fs1 t) as [flow t1]. cbn [fst snd] in *. subst flow.
  destruct fs2 as [|file fs2]; [congruence|].
  cbn [loop]. rewrite Loop.body_cases, R. reflexivity.
Qed.

End Facts.

End Trace.


(* ================================================================= *)
(** ** Further facts on the pre-sort *)

Module PresortTwice.

Section Facts.

Variable w : World.





End Facts.

End PresortTwice.

(* ================================================================= *)
(** ** Further facts on the resolution rules *)

Module Sizes.

Import Float FloatFacts FloatOrder.
Local Open Scope Q_scope.

Lemma max3_bounds (a b c : Q) :
  a <= max3 a b c /\ b <= max3 a b c /\ c <= max3 a b c.
Proof.
  unfold max3, max.
  destruct (gt b a) eqn:E1;
    match goal with |- context [gt c ?y] => destruct (gt c y) eqn:E2 end;
    apply gt_true in E1 || apply gt_false in E1;
    apply gt_true in E2 || apply gt_false in E2; repeat split; lra.
Qed.

Lemma to_int_of_integer (n : Z) : (0 <= n)%Z -> to_int (inject_Z n) = n.
Proof.
  intros H. rewrite to_int_nonneg.
  - apply Qfloor_Z.
  - change 0 with (inject_Z 0). rewrite <- Zle_Qle. exact H.
Qed.

(** A side times a scale of at least 1.0 does not shrink. *)
Lemma scaled_side_grows (n : Z) (s : Q) : (0 < n < 2 ^ 53)%Z -> 1 <= s ->
  (n <= to_int (mul (of_int n) s))%Z.
Proof.
  intros [N0 N1] S. rewrite of_int_exact by lia.
  assert (P : 0 < inject_Z n) by (apply Resolution.inject_Z_pos; exact N0).
  rewrite <- (@to_int_of_integer n) at 1 by lia.
  apply to_int_mono; [lra|].
  rewrite <- (@of_int_exact n) at 1 by lia. unfold of_int, mul.
  apply rnd_mono; [lra|]. 
  assert (inject_Z n * 1 <= inject_Z n * s).
  { rewrite !(Qmult_comm (inject_Z n)). apply Qmult_le_compat_r; lra. }
  lra.
Qed.

(** A side below the minimum [m], times a scale of at least the float
    [m / side], comes within a pixel of [m]. *)
Lemma scaled_side_reaches (n m : Z) (s : Q) :
  (0 < n < m)%Z -> (m <= 3840)%Z -> div (inject_Z m) (inject_Z n) <= s ->
  (m - 1 <= to_int (mul (of_int n) s))%Z.
Proof.
  intros [N0 N1] M S. rewrite of_int_exact by lia.
  assert (Pn : 0 < inject_Z n) by (apply Resolution.inject_Z_pos; exact N0).
  assert (Pm : 0 < inject_Z m) by (apply Resolution.inject_Z_pos; lia).
  destruct (div_error Pm Pn) as (A & _ & Pd).
  assert (Bm : inject_Z m <= 3840).
  { change 3840 with (inject_Z 3840). rewrite <- Zle_Qle. exact M. }
  assert (B1 : 2 <= inject_Z m).
  { change 2 with (inject_Z 2). rewrite <- Zle_Qle. lia. }
  set (d := div (inject_Z m) (inject_Z n)) in *.
  assert (Pp : 0 < inject_Z n * s).
  { apply Qmult_lt_0_compat; lra. }
  destruct (rnd_error Pp) as [V _]. fold (mul (inject_Z n) s) in V.
  assert (L : inject_Z n * d <= inject_Z n * s).
  { rewrite !(Qmult_comm (inject_Z n)). apply Qmult_le_compat_r; lra. }
  assert (G : inject_Z m - 1 <= mul (inject_Z n) s).
  { set (v := mul (inject_Z n) s) in *. set (x := inject_Z n) in *.
    set (y := inject_Z m) in *. clearbody v x y d. unfold ulp_half in *. nra. }
  rewrite to_int_nonneg by lra.
  replace (m - 1)%Z with (Qfloor (inject_Z (m - 1))) by apply Qfloor_Z.
  apply Qfloor_resp_le. unfold Z.sub. rewrite inject_Z_plus. exact G.
Qed.

Lemma raster_size_bounds (W H : Z) :
  (0 < W < 2 ^ 53)%Z -> (0 < H < 2 ^ 53)%Z ->
  ((3840 <=? W)%Z && (2160 <=? H)%Z = false) ->
  let size :=
    scaled W H (max3 1 (div 3840 (inject_Z W)) (div 2160 (inject_Z H))) in
  (W <= fst size /\ H <= snd size /\ 3839 <= fst size /\ 2159 <= snd size)%Z.
Proof.
  intros HW HH Small size. subst size. unfold scaled. cbn [fst snd].
  destruct (max3_bounds 1 (div 3840 (inject_Z W)) (div 2160 (inject_Z H)))
    as (S1 & Sw & Sh).
  set (s := max3 1 (div 3840 (inject_Z W)) (div 2160 (inject_Z H))) in *.
  pose proof (scaled_side_grows HW S1) as GW.
  pose proof (scaled_side_grows HH S1) as GH.
  split; [exact GW|]. split; [exact GH|]. split.
  - destruct (Z_lt_le_dec W 3840) as [L|L]; [|lia].
    apply (@scaled_side_reaches W 3840 s); [lia | lia | exact Sw].
  - destruct (Z_lt_le_dec H 2160) as [L|L]; [|lia].
    apply (@scaled_side_reaches H 2160 s); [lia | lia | exact Sh].
Qed.

(** The PSD rule keeps the new size inside the box, on one of its
    sides. *)
Lemma psd_size_fits (resolution : string) (W H : Z) :
  (0 < W < 2 ^ 32)%Z -> (0 < H < 2 ^ 32)%Z ->
  exists new_w new_h : Z,
    psd_size resolution W H = inr (new_w, new_h)
    /\ (0 <= new_w <= fst (target_box resolution))%Z
    /\ (0 <= new_h <= snd (target_box resolution))%Z
    /\ (new_w = fst (target_box resolution) \/ new_h = snd (target_box resolution))
    /\ ((fst (target_box resolution) * H < W)%Z -> new_h = 0%Z)
    /\ ((snd (target_box resolution) * W < H)%Z -> new_w = 0%Z).
Proof.
  intros HW HH.
  destruct (Resolution.psd_size_spec resolution HW HH) as (nw & nh & E & Wide & Tall).
  destruct (Resolution.box_facts resolution) as (_ & _ & _ & E169 & [Ptw Btw] & [Pth Bth]).
  set (Tw := fst (target_box resolution)) in *.
  set (Th := snd (target_box resolution)) in *.
  destruct HW as [W0 W1]. destruct HH as [H0 H1].
  pose proof (Resolution.inject_Z_pos W0) as PW.
  pose proof (Resolution.inject_Z_pos H0) as PH.
  pose proof (Resolution.inject_Z_pos Ptw) as PTw.
  pose proof (Resolution.inject_Z_pos Pth) as PTh.
  assert (Hcmp : wider W H Tw Th <-> (Tw * H < Th * W)%Z).
  { unfold wider. rewrite Zlt_Qlt, !inject_Z_mult. split; intros L.
    - assert (A : inject_Z Tw / inject_Z Th * (inject_Z Th * inject_Z H)
                  < inject_Z W / inject_Z H * (inject_Z Th * inject_Z H)).
      { apply Qmult_lt_compat_r; [|exact L]. apply Qmult_lt_0_compat; assumption. }
      assert (A1 : inject_Z Tw / inject_Z Th * (inject_Z Th * inject_Z H)
                   == inject_Z Tw * inject_Z H) by (field; lra).
      assert (A2 : inject_Z W / inject_Z H * (inject_Z Th * inject_Z H)
                   == inject_Z Th * inject_Z W) by (field; lra).
      lra.
    - apply Qlt_shift_div_l; [exact PH|].
      assert (A : inject_Z Tw / inject_Z Th * inject_Z H
                  == inject_Z Tw * inject_Z H / inject_Z Th) by (field; lra).
      rewrite A. apply Qlt_shift_div_r; [exact PTh|]. lra. }
  (* [within_a_pixel], read in integers *)
  assert (Int : forall n a b c : Z, (0 < c)%Z ->
            within_a_pixel n (inject_Z a * inject_Z b / inject_Z c) ->
            (n * c <= a * b /\ a * b <= (n + 1) * c)%Z).
  { intros n a b c C [L U]. pose proof (Resolution.inject_Z_pos C) as PC.
    rewrite !Zle_Qle, !inject_Z_mult, inject_Z_plus. change (inject_Z 1) with 1.
    assert (X : inject_Z a * inject_Z b / inject_Z c * inject_Z c
                == inject_Z a * inject_Z b) by (field; lra).
    assert (L' : (inject_Z a * inject_Z b / inject_Z c - 1) * inject_Z c
                 <= inject_Z n * inject_Z c)
      by (apply Qmult_le_compat_r; lra).
    assert (U' : inject_Z n * inject_Z c
                 <= inject_Z a * inject_Z b / inject_Z c * inject_Z c)
      by (apply Qmult_le_compat_r; lra).
    split; lra. }
  exists nw, nh. split; [exact E|].
  destruct (Z_lt_le_dec (Tw * H) (Th * W)) as [L|L].
  - destruct (Wide (proj2 Hcmp L)) as (-> & _ & Px).
    apply Int in Px; [|exact W0]. destruct Px as [P1 P2].
    assert (N0 : (0 <= nh)%Z) by nia.
    assert (N1 : (nh <= Th)%Z) by nia.
    repeat split; try lia; intros; nia.
  - assert (NW : ~ wider W H Tw Th) by (intros X; apply Hcmp in X; lia).
    destruct (Tall NW) as (-> & _ & Px).
    apply Int in Px; [|exact H0]. destruct Px as [P1 P2].
    assert (N0 : (0 <= nw)%Z) by nia.
    assert (N1 : (nw <= Tw)%Z) by nia.
    repeat split; try lia; intros; nia.
Qed.

End Sizes.


(* ================================================================= *)
(** ** Facts on the window *)

Module Window.

Local Open Scope string_scope.

Lemma contains_step (sub : string) (c : ascii) (rest : string) :
  contains sub (String c rest)
  = String.prefix sub (String c rest) || contains sub rest.
Proof.
  cbn [contains]. destruct (String.prefix sub (String c rest)); reflexivity.
Qed.

(** A text with "FHD" in it has "HD" in it. *)
Lemma fhd_has_hd (s : string) : contains "FHD" s = true -> contains "HD" s = true.
Proof.
  induction s as [|c rest IH]; [discriminate|].
  rewrite !contains_step. intros H. apply orb_true_iff in H as [P|R].
  - apply orb_true_iff. right. cbn [String.prefix] in P.
    destruct (ascii_dec "F" c); [|discriminate].
    destruct rest as [|c1 rest]; [discriminate|].
    rewrite contains_step. apply orb_true_iff. left. exact P.
  - apply orb_true_iff. right. apply IH. exact R.
Qed.

Lemma selected_resolution_cases (text : string) :
  selected_resolution text = "HD" \/ selected_resolution text = "4K".
Proof.
  unfold selected_resolution. destruct (contains "HD" text) eqn:E; [left; reflexivity|].
  destruct (contains "FHD" text) eqn:F; [|right; reflexivity].
  apply fhd_has_hd in F. congruence.
Qed.

Section Folder.

Variable w : World.
Variable d : Folders.

(** Under the laws of [os.path], the filter of the folder picker and
    the test of the thread agree. *)
Lemma filter_is_recognized (folder f : string) (names : list string) :
  path_laws w folder names -> In f names ->
  (mem (upper w (lstrip_dots (snd (splitext w f)))) (map (upper w) SUPPORTED_FORMATS)
   || (upper w (lstrip_dots (snd (splitext w f))) =? "PSD"))
  = recognized (extension_of w (join w folder f)).
Proof.
  intros (B & L & U) Hin. unfold recognized, extension_of.
  rewrite (B f Hin), (L f Hin), U. reflexivity.
Qed.

Lemma supported_among_spec (folder : string) (names all : list string) :
  path_laws w folder all -> incl names all ->
  supported_among w d folder names
  = map (join w folder)
      (filter (fun f => isfile d (join w folder f)
                        && recognized (extension_of w (join w folder f))) names).
Proof.
  intros Laws. induction names as [|f names IH]; intros Inc; [reflexivity|].
  cbn [supported_among filter].
  rewrite (@filter_is_recognized folder f all Laws) by (apply Inc; left; reflexivity).
  rewrite IH by (intros x Hx; apply Inc; right; exact Hx).
  destruct (isfile d (join w folder f)); cbn [andb]; [|reflexivity].
  destruct (recognized _); reflexivity.
Qed.

End Folder.

End Window.

(* ================================================================= *)
(** ** Further facts on [run]: its outcomes *)

Module Outcome.

Import Loop Trace.
Local Open Scope string_scope.

Section Facts.

Variable w : World.
Variable reads : nat -> Reads.

(** [run] either stops at the directory check or goes on as [started]. *)
Lemma run_cases (t : Thread) :
  (exists e,
     run w reads t
     = (DirectoryError,
        emit (error_signal ("Failed to create output directory: " ++ e) "DIR_ERROR") t))
  \/ (directory_ready w (output_dir t) /\ run w reads t = started w reads t).
Proof.
  destruct (path_exists w (output_dir t)) eqn:P.
  - right. split; [left; exact P|]. apply Run.run_started. left. exact P.
  - destruct (makedirs w (output_dir t)) as [e|] eqn:M.
    + left. exists e. apply Run.run_refused; assumption.
    + right. split; [right; exact M|]. apply Run.run_started. right. exact M.
Qed.

(** [started] by the way the loop ends. *)
Lemma started_cases (t : Thread) :
  let r := loop w reads 0 (presort w (files t)) (entered w t) in
  (fst r = Uncaught /\ started w reads t = (Crashed, snd r))
  \/ (fst r <> Uncaught
      /\ started w reads t
         = (match fst r with Break => Cancelled | _ => Completed end,
            emit (completion_signal (last_output_path (snd r))
                    (Float.of_int (Z.of_N (total_size (snd r))))
                    (Float.of_int (Z.of_N (output_total_size (snd r))))
                    (success_count (snd r)) (failure_count (snd r))) (snd r))).
Proof.
  cbv zeta. unfold started. change (files (entered w t)) with (presort w (files t)).
  destruct (loop w reads 0 (presort w (files t)) (entered w t)) as [[| |] t2];
    cbn [fst snd].
  - right. split; [discriminate | reflexivity].
  - right. split; [discriminate | reflexivity].
  - left. split; reflexivity.
Qed.

(** The thread after [started]: the thread after the loop, with the
    completion signal unless the loop crashed. *)
Lemma started_thread (t : Thread) :
  let r := loop w reads 0 (presort w (files t)) (entered w t) in
  exists tail,
    emitted (snd (started w reads t)) = (emitted (snd r) ++ tail)%list
    /\ percents tail = [] /\ error_kinds tail = []
    /\ count_of is_error tail = 0%nat /\ count_of is_skip_snapshot tail = 0%nat
    /\ count_of is_conversion_snapshot tail = 0%nat
    /\ files (snd (started w reads t)) = files (snd r)
    /\ total_size (snd (started w reads t)) = total_size (snd r)
    /\ processed_size (snd (started w reads t)) = processed_size (snd r)
    /\ success_count (snd (started w reads t)) = success_count (snd r)
    /\ failure_count (snd (started w reads t)) = failure_count (snd r)
    /\ last_output_path (snd (started w reads t)) = last_output_path (snd r).
Proof.
  cbv zeta. destruct (started_cases t) as [[_ E] | [_ E]]; rewrite E; cbn [snd].
  - exists []. rewrite app_nil_r. repeat split.
  - eexists [_]. repeat split.
Qed.

Lemma count_app (p : Event -> bool) (l1 l2 : list Event) :
  count_of p (l1 ++ l2) = (count_of p l1 + count_of p l2)%nat.
Proof. unfold count_of. rewrite filter_app, length_app. reflexivity. Qed.

(** A list that starts within the totals stays within them. *)
Lemma loop_within_totals (fs : list string) : forall (i : nat) (t : Thread),
  within_totals w t i fs ->
  (processed_size (snd (loop w reads i fs t)) <= total_size t)%N.
Proof.
  induction fs as [|file fs IH]; intros i t [B1 B2]; cbn [loop].
  - cbn [snd]. cbn [_calculate_total_size] in B1. lia.
  - cbn [_calculate_total_size List.length] in B1, B2.
    destruct (body_processed w i file (reads i) t) as (d & P & _ & D).
    pose proof (body_same_job w i file (reads i) t) as (Jf & _ & _ & _ & Jt).
    assert (Hd : (d <= match getsize w file with Some n => n | None => 0 end)%N).
    { destruct D as [-> | ->]; lia. }
    destruct (body w i file (reads i) t) as [[| |] t1]; cbn [snd] in *; try lia.
    rewrite <- Jt. apply IH. split; rewrite ?Jf, ?Jt, ?P; lia.
Qed.

(** The thread [__init__] makes enters the loop within its totals. *)
Lemma init_within_totals (fs : list string) (out fmt resolution : string) :
  within_totals w (entered w (init w fs out fmt resolution)) 0
    (presort w fs).
Proof.
  split; cbn.
  - rewrite (Presort.total_size_perm w (Presort.presort_perm w fs)). lia.
  - lia.
Qed.

(** Among files of recognized extension every reached file is counted. *)
Lemma recognized_all_counted (fs : list string) :
  Forall (fun p => recognized (extension_of w p) = true) fs ->
  forall i, filter (counted w reads) (reached reads i fs) = reached reads i fs.
Proof.
  induction 1 as [|file fs R F IH]; intros i; cbn [reached]; [reflexivity|].
  destruct (is_running (reads i)); [|reflexivity].
  cbn [filter]. unfold counted at 1, counted_at. cbn [fst snd].
  rewrite R, orb_true_r, IH. reflexivity.
Qed.

End Facts.

End Outcome.

(* ================================================================= *)
(** ** Facts on the run in a world that changes *)

Module Changing.

Import Loop.
Local Open Scope string_scope.

Section Facts.

Variable w : World.
Variable ws : nat -> World.
Variable reads : nat -> Reads.

(** In a world that stays as it is, [loop_at] is [loop] and [run_at]
    is [run]. *)
Lemma loop_at_const (fs : list string) : forall (i : nat) (t : Thread),
  loop_at (fun _ => w) reads i fs t = loop w reads i fs t.
Proof.
  induction fs as [|file fs IH]; intros i t; cbn [loop_at loop]; [reflexivity|].
  destruct (body w i file (reads i) t) as [[| |] t1]; try reflexivity. apply IH.
Qed.

Lemma run_at_const (t : Thread) : run_at w (fun _ => w) reads t = run w reads t.
Proof.
  unfold run_at, run.
  destruct (if path_exists w (output_dir t) then None else makedirs w (output_dir t));
    [reflexivity|].
  cbv zeta. rewrite loop_at_const. reflexivity.
Qed.

(** [run_at] stops at the directory check or goes through the loop. *)
Lemma run_at_cases (t : Thread) :
  (exists e,
     run_at w ws reads t
     = (DirectoryError,
        emit (error_signal ("Failed to create output directory: " ++ e) "DIR_ERROR") t))
  \/ (directory_ready w (output_dir t)
      /\ run_at w ws reads t
         = match loop_at ws reads 0 (presort w (files t)) (entered w t) with
           | (Uncaught, t2) => (Crashed, t2)
           | (flow, t2) =>
               (match flow with Break => Cancelled | _ => Completed end,
                emit (completion_signal (last_output_path t2)
                        (Float.of_int (Z.of_N (total_size t2)))
                        (Float.of_int (Z.of_N (output_total_size t2)))
                        (success_count t2) (failure_count t2)) t2)
           end).
Proof.
  unfold run_at, directory_ready.
  destruct (path_exists w (output_dir t)) eqn:P;
    [|destruct (makedirs w (output_dir t)) as [e|] eqn:M].
  - right. split; [left; reflexivity|]. cbv zeta.
    change (presort w (files t)) with (files (entered w t)). unfold entered.
    destruct (loop_at ws reads 0 _ _) as [[| |] t2]; reflexivity.
  - left. exists e. reflexivity.
  - right. split; [right; reflexivity|]. cbv zeta.
    change (presort w (files t)) with (files (entered w t)). unfold entered.
    destruct (loop_at ws reads 0 _ _) as [[| |] t2]; reflexivity.
Qed.

Lemma loop_at_same_job (fs : list string) : forall (i : nat) (t : Thread),
  same_job t (snd (loop_at ws reads i fs t)).
Proof.
  induction fs as [|file fs IH]; intros i t; cbn [loop_at]; [apply same_job_refl|].
  pose proof (body_same_job (ws i) i file (reads i) t) as B.
  destruct (body (ws i) i file (reads i) t) as [[| |] t1]; cbn [snd] in *; try exact B.
  eapply same_job_trans; [exact B | apply IH].
Qed.

(** When each file has, at its iteration, the size it had in [w0],
    a list of advancing iterations adds up to its total in [w0]. *)
Lemma loop_at_advancing (w0 : World) (fs : list string) :
  forall (i : nat) (t : Thread),
  (forall j f, nth_error fs j = Some f -> getsize (ws (i + j)) f = getsize w0 f) ->
  (forall j f, nth_error fs j = Some f ->
               advancing (ws (i + j)) t (reads (i + j)) f = true) ->
  exists t',
    loop_at ws reads i fs t = (Continue, t')
    /\ processed_size t' = (processed_size t + _calculate_total_size w0 fs)%N
    /\ (fs <> [] -> last_snapshot t' (progress_of t' (i + List.length fs - 1))).
Proof.
  induction fs as [|file fs IH]; intros i t Hs H; cbn [loop_at _calculate_total_size].
  - exists t. split; [reflexivity|]. split; [lia|]. congruence.
  - destruct (@body_advancing (ws i) i file (reads i) t) as (t1 & B & P & Snap).
    { specialize (H 0%nat file eq_refl). rewrite Nat.add_0_r in H. exact H. }
    rewrite B.
    destruct (IH (S i) t1) as (t' & L & P' & Snap').
    { intros j f Hj. replace (S i + j)%nat with (i + S j)%nat by lia.
      apply Hs. exact Hj. }
    { intros j f Hj.
      pose proof (body_same_job (ws i) i file (reads i) t) as J. rewrite B in J.
      destruct J as (_ & J1 & J2 & J3 & _).
      rewrite (@advancing_same_job (ws (S i + j)) t t1 _ _ J1 J2 J3).
      replace (S i + j)%nat with (i + S j)%nat by lia. apply H. exact Hj. }
    exists t'. split; [exact L|]. split.
    + specialize (Hs 0%nat file eq_refl). rewrite Nat.add_0_r in Hs.
      rewrite P', P. unfold file_size_of. rewrite Hs. lia.
    + intros _. destruct fs as [|g fs].
      * cbn [loop_at] in L. injection L as <-. cbn [List.length].
        replace (i + 1 - 1)%nat with i by lia. exact Snap.
      * replace (i + List.length (file :: g :: fs) - 1)%nat
          with (S i + List.length (g :: fs) - 1)%nat by (cbn [List.length]; lia).
        apply Snap'. discriminate.
Qed.

(** Under the same condition, a list that starts within the totals
    of [w0] stays within them. *)
Lemma loop_at_within_totals (w0 : World) (fs : list string) :
  forall (i : nat) (t : Thread),
  (forall j f, nth_error fs j = Some f -> getsize (ws (i + j)) f = getsize w0 f) ->
  within_totals w0 t i fs ->
  (processed_size (snd (loop_at ws reads i fs t)) <= total_size t)%N.
Proof.
  induction fs as [|file fs IH]; intros i t Hs [B1 B2]; cbn [loop_at].
  - cbn [snd]. cbn [_calculate_total_size] in B1. lia.
  - cbn [_calculate_total_size List.length] in B1, B2.
    destruct (body_processed (ws i) i file (reads i) t) as (d & P & _ & D).
    pose proof (body_same_job (ws i) i file (reads i) t) as (Jf & _ & _ & _ & Jt).
    assert (Hd : (d <= match getsize w0 file with Some n => n | None => 0 end)%N).
    { specialize (Hs 0%nat file eq_refl). rewrite Nat.add_0_r in Hs. rewrite <- Hs.
      destruct D as [-> | ->]; lia. }
    destruct (body (ws i) i file (reads i) t) as [[| |] t1]; cbn [snd] in *; try lia.
    rewrite <- Jt. apply IH.
    + intros j f Hj. replace (S i + j)%nat with (i + S j)%nat by lia.
      apply Hs. exact Hj.
    + split; rewrite ?Jf, ?Jt, ?P; lia.
Qed.

End Facts.

End Changing.

(* ================================================================= *)
(** ** The model at work *)

Import Example.
Local Open Scope string_scope.

(** [int(0.29 * 100)] is 28 in Python, and so it is here. *)
Example percent_of_29_hundredths :
  Float.to_int (Float.mul (Float.div 29 100) 100) = 28%Z.
Proof. vm_compute. reflexivity. Qed.

(** A 4000 x 2000 PSD at FHD becomes 1920 x 960. *)
Example psd_4000_2000_at_fhd : psd_size "FHD" 4000 2000 = inr (1920, 960)%Z.
Proof. vm_compute. reflexivity. Qed.

(** An 11 x 100 image: the scale is the float 3840/11, and
    [int(11 * scale)] is 3839, one below the exact product, as in
    Python. *)
Example raster_11_100 :
  scaled 11 100 (Float.max3 1 (Float.div 3840 11) (Float.div 2160 100))
  = (3839, 34909)%Z.
Proof. vm_compute. reflexivity. Qed.

(** A mixed job: the missing file is reported, the text file passes
    unseen, its 50 bytes keep the last snapshot at 92 percent. *)
Example mixed_job :
  run studio idle
    (init studio ["in/big.png"; "in/small.jpeg"; "in/notes.txt"; "in/gone.png";
                  "in/art.psd"] "out" "PNG" "FHD")
  = (Completed,
     {| files := ["in/gone.png"; "in/notes.txt"; "in/small.jpeg"; "in/art.psd";
                  "in/big.png"];
        output_dir := "out"; format_ := "PNG"; psd_resolution := "FHD";
        total_size := 650; processed_size := 600;
        success_count := 3; failure_count := 1;
        last_output_path := "out/big.png"; output_total_size := 3;
        emitted :=
          [error_signal "File not found: in/gone.png" "FILE_NOT_FOUND";
           progress_signal 15 "ETA: 11s" "Speed: 0.00 MB/s";
           progress_signal 46 "ETA: 2s" "Speed: 0.00 MB/s";
           progress_signal 92 "ETA: 0s" "Speed: 0.00 MB/s";
           completion_signal "out/big.png" 650 3 3 1] |}).
Proof. vm_compute. reflexivity. Qed.

(** With skip-all set from the start every file, the text file too, is
    counted as failed and its bytes as processed. *)
Example skip_all_job :
  let r := run studio skipping
             (init studio ["in/big.png"; "in/notes.txt"] "out" "PNG" "4K") in
  success_count (snd r) = 0%nat /\ failure_count (snd r) = 2%nat
  /\ processed_size (snd r) = 350%N
  /\ emitted (snd r) =
       [progress_signal 14 "Skipping..." ""; progress_signal 100 "Skipping..." "";
        completion_signal "" 350 0 0 2].
Proof. vm_compute. repeat split. Qed.

(** Cancelled before the second file. *)
Example cancelled_job :
  let stop_after_one := fun i =>
    {| is_running := (i <? 1)%nat; skip_all := false; skip_errors := [];
       skip_all_in_handler := false; elapsed_time := 1 |} in
  let r := run studio stop_after_one
             (init studio ["in/big.png"; "in/small.jpeg"] "out" "PNG" "4K") in
  fst r = Cancelled /\ success_count (snd r) = 1%nat
  /\ processed_size (snd r) = 100%N.
Proof. vm_compute. repeat split. Qed.

(** The sizes are not fixed when the output folder is the input
    folder: the save of [in/a.jpeg] overwrites [in/a.png], the loop
    then reads 43011 bytes where [__init__] read 300, and the run ends
    with 43111 of 400 bytes processed and a snapshot of 10777
    percent. *)
Example overwritten_input_overshoots :
  let r := run_at shared_folder overwriting idle
             (init shared_folder ["in/a.jpeg"; "in/a.png"] "in" "PNG" "4K") in
  fst r = Completed /\ total_size (snd r) = 400%N
  /\ processed_size (snd r) = 43111%N
  /\ percents (emitted (snd r)) = [25; 10777]%Z.
Proof. vm_compute. repeat split. Qed.

(* ================================================================= *)
(** ** The claims *)

(** *** C1 *)

(** C1, as worded, fails: a missing file of unrecognized extension is
    reached by an uncancelled loop and counted as a failure, though no
    reached file has a recognized extension. *)
Lemma unrecognized_missing_file_is_counted :
  let r := run studio idle (init studio ["in/gone.txt"] "out" "PNG" "4K") in
  fst r = Completed
  /\ recognized (extension_of studio "in/gone.txt") = false
  /\ (success_count (snd r) + failure_count (snd r))%nat = 1%nat
  /\ recognized_reached studio idle (files (snd r)) = 0%nat
  /\ (success_count (snd r) + failure_count (snd r))%nat
     <> recognized_reached studio idle (files (snd r)).
Proof. vm_compute. repeat split. discriminate. Qed.

(** C1, amended: when [run] completes or is cancelled, the successes
    and failures it added number the reached files that are missing, or
    skipped by policy (extension in the skip set, or skip-all set), or of
    recognized extension; and an existing file of unrecognized
    extension that the policy does not skip leaves the whole thread
    state, both counters included, as it was. *)
Theorem counters_count_reached_files
    (w : World) (reads : nat -> Reads) (t : Thread) :
  fst (run w reads t) = Completed \/ fst (run w reads t) = Cancelled ->
  (success_count (snd (run w reads t)) + failure_count (snd (run w reads t))
   = success_count t + failure_count t
     + List.length (filter (counted w reads)
                      (reached reads 0 (files (snd (run w reads t))))))%nat
  /\ forall (i : nat) (file : string) (t0 : Thread),
       path_exists w file = true ->
       policy_skips (reads i) (extension_of w file) = false ->
       recognized (extension_of w file) = false ->
       snd (body w i file (reads i) t0) = t0.
Proof.
  intros Hexit. split.
  - pose proof (Run.finished_run_started _ _ _ Hexit) as Hdir.
    rewrite (Run.run_started _ _ Hdir) in *. unfold started in *. cbv zeta in *.
    pose proof (@Loop.loop_counts w reads (files (entered w t)) 0 (entered w t)) as C.
    pose proof (@Loop.loop_same_job w reads (files (entered w t)) 0 (entered w t))
      as (J & _).
    destruct (loop w reads 0 (files (entered w t)) (entered w t)) as [[| |] t2];
      cbn [fst snd files success_count failure_count emit] in *;
      try (rewrite J; apply C; discriminate).
    destruct Hexit; discriminate.
  - intros i file t0 Hex Hskip Hrec. rewrite Loop.body_cases, Hex, Hskip, Hrec.
    destruct (is_running (reads i)); reflexivity.
Qed.

Lemma counters_count_reached_files_witness :
  let r := run studio idle
             (init studio ["in/big.png"; "in/notes.txt"; "in/gone.txt"] "out" "PNG" "4K") in
  (success_count (snd r) + failure_count (snd r))%nat = 2%nat
  /\ snd (body studio 1 "in/notes.txt" (idle 1) (snd r)) = snd r.
Proof.
  destruct (@counters_count_reached_files studio idle
              (init studio ["in/big.png"; "in/notes.txt"; "in/gone.txt"] "out" "PNG" "4K"))
    as [A B].
  - left. vm_compute. reflexivity.
  - split.
    + exact A.
    + apply B; vm_compute; reflexivity.
Defined.

(** *** C2 *)

(** C2, as worded, fails: with skip-all off, a file that cannot be
    decoded is reported and counted, but its 300 bytes are not added to
    [processed_size]; the run completes with 0 of 300 bytes processed
    and emits no snapshot at all. *)
Lemma reported_failure_does_not_advance :
  let t := init corrupt ["in/big.png"] "out" "PNG" "4K" in
  let r := run corrupt idle t in
  fst r = Completed
  /\ attempt corrupt t "in/big.png" = inl (OtherException "cannot identify image file")
  /\ file_size_of corrupt "in/big.png" = 300%N
  /\ failure_count (snd r) = 1%nat
  /\ processed_size (snd r) = 0%N /\ total_size (snd r) = 300%N
  /\ processed_size (snd r)
     <> (processed_size t + file_size_of corrupt "in/big.png")%N
  /\ emitted (snd r) =
       [error_signal "Error processing big.png: cannot identify image file" "PNG";
        completion_signal "out/big.png" 300 0 0 1].
Proof. vm_compute. repeat split. discriminate. Qed.

(** C2, amended: a missing file leaves [processed_size] as it is; a
    conversion that fails with [MemoryError] or another exception adds
    the size of the file when skip-all is set at that moment and
    nothing when it is not (the failure is then reported by an error
    signal); and when each file has, at the iteration that reads it,
    the size [__init__] read (the thread is made in a world [w0], the
    run starts in [w] and iteration [j] reads [ws j]), an uncancelled
    run in which every file exists and is converted, skipped by
    policy, or fails so under skip-all ends with [processed_size]
    equal to [total_size] and with a last snapshot of 100 percent
    before the completion signal.  Without the fixed sizes it does
    not: [overwritten_input_overshoots]. *)
Theorem progress_accounting_on_failure (w : World) (reads : nat -> Reads) :
  (forall (i : nat) (file : string) (t : Thread),
     path_exists w file = false ->
     processed_size (snd (body w i file (reads i) t)) = processed_size t)
  /\ (forall (i : nat) (file : string) (t : Thread) (e : exn),
        is_running (reads i) = true -> path_exists w file = true ->
        policy_skips (reads i) (extension_of w file) = false ->
        recognized (extension_of w file) = true ->
        attempt w t file = inl e -> (forall msg, e <> ImportError msg) ->
        processed_size (snd (body w i file (reads i) t))
        = (processed_size t
           + (if skip_all_in_handler (reads i) then file_size_of w file else 0))%N)
  /\ (forall (w0 : World) (ws : nat -> World) (fs : list string)
             (out fmt resolution : string),
        directory_ready w out -> fs <> [] ->
        (forall j f, nth_error (presort w fs) j = Some f ->
                     getsize (ws j) f = getsize w0 f) ->
        (forall j f, nth_error (presort w fs) j = Some f ->
                     advancing (ws j) (init w0 fs out fmt resolution) (reads j) f
                     = true) ->
        let r := run_at w ws reads (init w0 fs out fmt resolution) in
        fst r = Completed
        /\ processed_size (snd r) = total_size (snd r)
        /\ exists earlier eta_text speed_text summary,
             emitted (snd r)
             = (earlier ++ [progress_signal 100 eta_text speed_text; summary])%list).
Proof.
  split; [|split].
  - intros i file t Hex.
    destruct (Loop.body_processed w i file (reads i) t) as (d & E & Z0 & _).
    rewrite E, (Z0 Hex). lia.
  - intros i file t e Hrun Hex Hskip Hrec Hatt Himp.
    rewrite Loop.body_cases, Hrun, Hex, Hskip, Hrec, Hatt. cbn [negb]. cbv zeta.
    destruct e as [|msg|msg]; cbn [handle].
    + destruct (skip_all_in_handler (reads i)); cbn; lia.
    + exfalso. apply (Himp msg). reflexivity.
    + destruct (skip_all_in_handler (reads i)); cbn; lia.
  - intros w0 ws fs out fmt resolution Hdir Hne Hsize Hadv r. subst r.
    set (t0 := init w0 fs out fmt resolution) in *.
    set (sorted := presort w fs) in *.
    destruct (Changing.run_at_cases w ws reads t0) as [[e E] | [_ E]].
    { exfalso. unfold run_at in E. change (output_dir t0) with out in E.
      destruct Hdir as [D | D]; rewrite D in E.
      - destruct (loop_at ws reads 0 _ _) as [[| |] t2]; discriminate.
      - destruct (path_exists w out);
          destruct (loop_at ws reads 0 _ _) as [[| |] t2]; discriminate. }
    rewrite E. change (files t0) with fs. fold sorted.
    destruct (@Changing.loop_at_advancing ws reads w0 sorted 0 (entered w t0))
      as (t2 & L & P & Snap).
    { exact Hsize. }
    { intros j f Hj. cbn [Nat.add].
      rewrite (@Loop.advancing_same_job (ws j) t0 (entered w t0));
        [apply Hadv; exact Hj | reflexivity ..]. }
    pose proof (@Changing.loop_at_same_job ws reads sorted 0 (entered w t0))
      as (Jf & _ & _ & _ & Jt).
    rewrite L in *. cbn [fst snd] in *.
    assert (Hperm : Permutation fs sorted) by apply Presort.presort_perm.
    assert (Hp : processed_size t2 = total_size t2).
    { rewrite P, Jt. cbn. apply Presort.total_size_perm. symmetry. exact Hperm. }
    assert (Hs : sorted <> []).
    { intros E0. rewrite E0 in Hperm. apply Permutation_sym, Permutation_nil in Hperm.
      exact (Hne Hperm). }
    split; [reflexivity|]. split; [exact Hp|].
    destruct (Snap Hs) as (earlier & eta & speed & Em).
    rewrite Run.progress_full in Em.
    + exists earlier, eta, speed. eexists. cbn [emitted emit]. rewrite Em.
      rewrite <- app_assoc. reflexivity.
    + exact Hp.
    + rewrite Jf. change (files (entered w t0)) with sorted.
      destruct sorted; [congruence|]. cbn [List.length]. lia.
Qed.

Lemma progress_accounting_on_failure_witness :
  let t := init corrupt ["in/big.png"] "out" "PNG" "4K" in
  let r := run_at corrupt (fun _ => corrupt) skip_all_midway t in
  processed_size (snd (body corrupt 0 "in/big.png" (skip_all_midway 0) t)) = 300%N
  /\ processed_size (snd (body corrupt 0 "in/big.png" (idle 0) t)) = 0%N
  /\ processed_size (snd (body corrupt 0 "in/gone.png" (idle 0) t)) = 0%N
  /\ fst r = Completed
  /\ processed_size (snd r) = total_size (snd r)
  /\ exists earlier eta_text speed_text summary,
       emitted (snd r)
       = (earlier ++ [progress_signal 100 eta_text speed_text; summary])%list.
Proof.
  intros t r.
  destruct (progress_accounting_on_failure corrupt skip_all_midway) as (_ & B & C).
  destruct (progress_accounting_on_failure corrupt idle) as (A' & B' & _).
  split; [|split; [|split]].
  - apply (B 0%nat "in/big.png" t (OtherException "cannot identify image file"));
      try reflexivity. intros msg. discriminate.
  - apply (B' 0%nat "in/big.png" t (OtherException "cannot identify image file"));
      try reflexivity. intros msg. discriminate.
  - apply (A' 0%nat "in/gone.png" t). reflexivity.
  - apply (C corrupt (fun _ => corrupt) ["in/big.png"] "out" "PNG" "4K").
    + left. reflexivity.
    + discriminate.
    + intros j f _. reflexivity.
    + intros [|[|j]] f H; vm_compute in H; try discriminate.
      injection H as <-. vm_compute. reflexivity.
Defined.

(** *** C3 *)

(** C3: a raster image (extension neither PSD nor PDF) of native size
    W x H is left at W x H when W >= 3840 and H >= 2160 (copied, for a
    file above 100 MiB); otherwise it is resized to both sides times
    the float [max(1.0, 3840/W, 2160/H)], truncated; the resolution
    preset plays no part. *)
Theorem raster_resolution_policy
    (w : World) (resolution file ext : string) (file_size : N) (W H : Z) :
  ext <> "PSD" -> ext <> "PDF" ->
  image_open w file = inr (W, H) -> (0 < W)%Z -> (0 < H)%Z ->
  decode w resolution file ext file_size
  = (if (3840 <=? W)%Z && (2160 <=? H)%Z then
       if (100 * 1024 * 1024 <? file_size)%N
       then _ <- copy w file ;; inr (W, H)
       else inr (W, H)
     else
       let scale :=
         Float.max3 1 (Float.div 3840 (inject_Z W)) (Float.div 2160 (inject_Z H)) in
       let new_size :=
         (Float.to_int (Float.mul (Float.of_int W) scale),
          Float.to_int (Float.mul (Float.of_int H) scale)) in
       _ <- resize w file new_size ;; inr new_size)
  /\ forall preset : string,
       decode w preset file ext file_size = decode w resolution file ext file_size.
Proof.
  intros Hpsd Hpdf Hopen HW HH. split.
  - apply Resolution.decode_raster; assumption.
  - intros preset.
    rewrite !(@Resolution.decode_raster w _ file ext file_size W H) by assumption.
    reflexivity.
Qed.

Lemma raster_resolution_policy_witness :
  decode studio "HD" "in/small.jpeg" "JPEG" 100 = inr (3840, 2160)%Z
  /\ decode studio "4K" "in/small.jpeg" "JPEG" 100
     = decode studio "HD" "in/small.jpeg" "JPEG" 100.
Proof.
  destruct (@raster_resolution_policy studio "HD" "in/small.jpeg" "JPEG" 100
              1920 1080) as [A B];
    [discriminate | discriminate | reflexivity | lia | lia |].
  split; [exact A | exact (B "4K")].
Defined.

(** *** C4 *)

(** C4: a PSD of size W x H (sides below 2^32, as the format stores
    them) and the box Tw x Th of the preset (HD 1280 x 720, FHD
    1920 x 1080, 4K 3840 x 2160): every PSD input that opens at that
    size is resized to the new size, which is the size of the image
    that goes on to be saved; when W/H > Tw/Th the new width is Tw
    and the new height, [int(Tw / aspect_ratio)], lies within one pixel
    of the exact Tw * H / W; otherwise the new height is Th and the new
    width, [int(Th * aspect_ratio)], lies within one pixel of the exact
    Th * W / H.  The resize may enlarge (1000 x 1000 at 4K) or reduce
    (4000 x 2000 at HD). *)
Theorem psd_resolution_policy (resolution : string) (W H : Z) :
  (0 < W < 2 ^ 32)%Z -> (0 < H < 2 ^ 32)%Z ->
  let Tw := fst (target_box resolution) in
  let Th := snd (target_box resolution) in
  let aspect_ratio := Float.div (inject_Z W) (inject_Z H) in
  (exists new_w new_h : Z,
     psd_size resolution W H = inr (new_w, new_h)
     /\ (forall (w : World) (file : string) (file_size : N),
           psd_open w file = inr (W, H) ->
           decode w resolution file "PSD" file_size
           = (_ <- resize w file (new_w, new_h) ;; inr (new_w, new_h)))
     /\ (wider W H Tw Th ->
         new_w = Tw
         /\ new_h = Float.to_int (Float.div (Float.of_int Tw) aspect_ratio)
         /\ within_a_pixel new_h (inject_Z Tw * inject_Z H / inject_Z W))
     /\ (~ wider W H Tw Th ->
         new_h = Th
         /\ new_w = Float.to_int (Float.mul (Float.of_int Th) aspect_ratio)
         /\ within_a_pixel new_w (inject_Z Th * inject_Z W / inject_Z H)))
  /\ target_box "HD" = (1280, 720)%Z /\ target_box "FHD" = (1920, 1080)%Z
  /\ target_box "4K" = (3840, 2160)%Z
  /\ psd_size "4K" 1000 1000 = inr (2160, 2160)%Z
  /\ psd_size "HD" 4000 2000 = inr (1280, 640)%Z.
Proof.
  intros HW HH Tw Th aspect_ratio.
  split; [|repeat split; vm_compute; reflexivity].
  destruct (Resolution.psd_size_spec resolution HW HH) as (new_w & new_h & E & Sides).
  exists new_w, new_h. split; [exact E|]. split; [|exact Sides].
  intros w file file_size Hopen.
  rewrite (@Resolution.decode_psd w resolution file file_size W H Hopen), E.
  reflexivity.
Qed.

Lemma psd_resolution_policy_witness :
  exists new_h : Z,
    psd_size "FHD" 4000 2000 = inr (1920%Z, new_h)
    /\ within_a_pixel new_h (inject_Z 1920 * inject_Z 2000 / inject_Z 4000)
    /\ decode poster "FHD" "in/art.psd" "PSD" 200 = inr (1920%Z, new_h).
Proof.
  destruct (@psd_resolution_policy "FHD" 4000 2000)
    as [(nw & nh & E & Dec & Wide & _) _]; [lia | lia |].
  destruct Wide as (A & _ & B); [reflexivity|].
  exists nh. rewrite A in E, Dec. split; [exact E|]. split; [exact B|].
  rewrite (Dec poster "in/art.psd" 200%N eq_refl). reflexivity.
Defined.

(** *** C5 *)

(** C5 (the code departs from it): PyMuPDF is missing and the
    controller sets skip-all while the PDF is in the [try] block.  The
    [ImportError] clause does not look at skip-all: it emits an error
    signal of kind IMPORT_ERROR, adds nothing to [processed_size] and
    emits no snapshot, where the [MemoryError] and [Exception] clauses
    next to it would skip silently. *)
Theorem import_error_ignores_skip_all :
  let t := init without_pymupdf ["in/doc.pdf"] "out" "PNG" "4K" in
  let r := run without_pymupdf skip_all_midway t in
  skip_all_in_handler (skip_all_midway 0) = true
  /\ attempt without_pymupdf t "in/doc.pdf"
     = inl (ImportError
         "PDF conversion requires PyMuPDF. Please install with: pip install PyMuPDF")
  /\ file_size_of without_pymupdf "in/doc.pdf" = 100%N
  /\ fst r = Completed
  /\ failure_count (snd r) = 1%nat
  /\ processed_size (snd r) = 0%N
  /\ emitted (snd r) =
       [error_signal
          "Missing library: PDF conversion requires PyMuPDF. Please install with: pip install PyMuPDF"
          "IMPORT_ERROR";
        completion_signal "out/doc.png" 100 0 0 1].
Proof. vm_compute. repeat split. Qed.

(** *** C6 *)

(** C6: a job of one path that does not exist, the output directory
    available, the loop not cancelled and skip-all off: the run emits
    one error signal, of kind FILE_NOT_FOUND, and then the completion
    signal; it ends with one failure, no success, and
    [processed_size] as it was. *)
Theorem missing_file_scenario
    (w : World) (reads : nat -> Reads) (file out fmt resolution : string) :
  path_exists w file = false -> directory_ready w out ->
  is_running (reads 0%nat) = true -> skip_all (reads 0%nat) = false ->
  let t := init w [file] out fmt resolution in
  let r := run w reads t in
  fst r = Completed
  /\ emitted (snd r) =
       [error_signal ("File not found: " ++ file) "FILE_NOT_FOUND";
        completion_signal "" (Float.of_int (Z.of_N (total_size t))) 0 0 1]
  /\ failure_count (snd r) = 1%nat /\ success_count (snd r) = 0%nat
  /\ processed_size (snd r) = processed_size t.
Proof.
  intros Hex Hdir Hrun Hall t r. subst r.
  rewrite (@Run.run_started w reads t Hdir). unfold started, entered.
  assert (Hsort : presort w (files t) = [file]).
  { unfold presort, decorate, sort_key. cbn [files t init]. rewrite Hex. reflexivity. }
  cbn [files set_files set_output_total_size set_last_output_path].
  rewrite Hsort. cbn [loop].
  rewrite Loop.body_cases, Hrun, Hex, Hall. cbn [negb].
  cbn. repeat split.
Qed.

Lemma missing_file_scenario_witness :
  let r := run studio idle (init studio ["in/gone.png"] "out" "PNG" "4K") in
  fst r = Completed
  /\ emitted (snd r) =
       [error_signal "File not found: in/gone.png" "FILE_NOT_FOUND";
        completion_signal "" 0 0 0 1]
  /\ failure_count (snd r) = 1%nat /\ success_count (snd r) = 0%nat
  /\ processed_size (snd r) = 0%N.
Proof.
  apply (@missing_file_scenario studio idle "in/gone.png" "out" "PNG" "4K").
  - reflexivity.
  - left. reflexivity.
  - reflexivity.
  - reflexivity.
Defined.

(** *** C7 *)



(** *** C8 *)




(** *** C9 *)

(** C9: [processed_size] never decreases during a run.  Every
    iteration adds to it a quantity d >= 0 that is zero for a missing
    file and otherwise zero or the byte size of the file; the value
    after any prefix of the file list is at most the value after a
    longer one; and [run] as a whole returns it no smaller than it
    found it. *)
Theorem processed_size_monotone (w : World) (reads : nat -> Reads) :
  (forall (i : nat) (file : string) (t : Thread),
     exists d : N,
       processed_size (snd (body w i file (reads i) t)) = (processed_size t + d)%N
       /\ (path_exists w file = false -> d = 0%N)
       /\ (d = 0%N \/ getsize w file = Some d))
  /\ (forall (i : nat) (fs1 fs2 : list string) (t : Thread),
        (processed_size t <= processed_size (snd (loop w reads i fs1 t)))%N
        /\ (processed_size (snd (loop w reads i fs1 t))
            <= processed_size (snd (loop w reads i (fs1 ++ fs2) t)))%N)
  /\ (forall t : Thread,
        (processed_size t <= processed_size (snd (run w reads t)))%N).
Proof.
  split; [|split].
  - intros i file t. apply Loop.body_processed.
  - intros i fs1 fs2 t. split; [apply Loop.loop_processed|].
    rewrite Loop.loop_app.
    destruct (loop w reads i fs1 t) as [[| |] t1]; cbn [snd]; try lia.
    apply Loop.loop_processed.
  - intros t. unfold run.
    destruct (if path_exists w (output_dir t) then None else makedirs w (output_dir t));
      [cbn; lia|].
    pose proof (@Loop.loop_processed w reads (files (entered w t)) 0 (entered w t)) as L.
    change (processed_size (entered w t)) with (processed_size t) in L.
    fold (entered w t).
    destruct (loop w reads 0 _ _) as [[| |] t2]; cbn [snd processed_size emit] in *;
      exact L.
Qed.

Lemma processed_size_monotone_witness :
  let t := init studio ["in/small.jpeg"; "in/gone.png"; "in/big.png"] "out" "PNG" "4K" in
  (processed_size (snd (loop studio idle 0 ["in/small.jpeg"; "in/gone.png"] t))
   <= processed_size
        (snd (loop studio idle 0 (["in/small.jpeg"; "in/gone.png"] ++ ["in/big.png"]) t)))%N.
Proof.
  intros t.
  destruct (processed_size_monotone studio idle) as (_ & B & _).
  apply (B 0%nat ["in/small.jpeg"; "in/gone.png"] ["in/big.png"] t).
Defined.

(** *** C10 *)

(** C10: when the output directory is missing and cannot be created,
    [run] emits one error signal of kind DIR_ERROR and returns: it
    emits no snapshot and no completion signal, and leaves the file
    list, the counters and the accumulators as they were. *)
Theorem directory_error_aborts
    (w : World) (reads : nat -> Reads) (t : Thread) (e : string) :
  path_exists w (output_dir t) = false -> makedirs w (output_dir t) = Some e ->
  run w reads t =
    (DirectoryError,
     emit (error_signal ("Failed to create output directory: " ++ e) "DIR_ERROR") t)
  /\ emitted (snd (run w reads t)) =
       (emitted t
        ++ [error_signal ("Failed to create output directory: " ++ e) "DIR_ERROR"])%list
  /\ files (snd (run w reads t)) = files t
  /\ success_count (snd (run w reads t)) = success_count t
  /\ failure_count (snd (run w reads t)) = failure_count t
  /\ processed_size (snd (run w reads t)) = processed_size t
  /\ output_total_size (snd (run w reads t)) = output_total_size t
  /\ last_output_path (snd (run w reads t)) = last_output_path t.
Proof.
  intros A B. rewrite (Run.run_refused w reads t A B). repeat split.
Qed.

Lemma directory_error_aborts_witness :
  run read_only idle (init read_only ["in/big.png"] "out" "PNG" "4K") =
    (DirectoryError,
     {| files := ["in/big.png"]; output_dir := "out"; format_ := "PNG";
        psd_resolution := "4K"; total_size := 300; processed_size := 0;
        success_count := 0; failure_count := 0; last_output_path := "";
        output_total_size := 0;
        emitted :=
          [error_signal
             "Failed to create output directory: [Errno 13] Permission denied"
             "DIR_ERROR"] |}).
Proof.
  apply (@directory_error_aborts read_only idle
           (init read_only ["in/big.png"] "out" "PNG" "4K")
           "[Errno 13] Permission denied").
  - reflexivity.
  - reflexivity.
Defined.

(* ================================================================= *)
(** ** Further properties *)

(** *** The snapshots *)

(** X1: every snapshot a thread made by [__init__] emits in [run]
    carries a percentage between 0 and 100, whatever the files, the
    libraries and the controller do (the sizes [run] reads being those
    [__init__] read). *)
Theorem snapshot_percent_in_range
    (w : World) (reads : nat -> Reads) (fs : list string)
    (out fmt resolution : string) :
  Forall (fun p => 0 <= p <= 100)%Z
    (percents (emitted (snd (run w reads (init w fs out fmt resolution))))).
Proof.
  destruct (Outcome.run_cases w reads (init w fs out fmt resolution))
    as [[e ->] | [_ ->]].
  - cbn. constructor.
  - destruct (Outcome.started_thread w reads (init w fs out fmt resolution))
      as (tail & E & P & _).
    rewrite E, Trace.percents_app, P, app_nil_r.
    apply Trace.loop_percents_in_range.
    + apply Outcome.init_within_totals.
    + cbn. constructor.
Qed.

(** X2: the percentages of the snapshots of one [run] never fall. *)
Theorem snapshot_percents_never_fall
    (w : World) (reads : nat -> Reads) (fs : list string)
    (out fmt resolution : string) :
  StronglySorted Z.le
    (percents (emitted (snd (run w reads (init w fs out fmt resolution))))).
Proof.
  destruct (Outcome.run_cases w reads (init w fs out fmt resolution))
    as [[e ->] | [_ ->]].
  - cbn. constructor.
  - destruct (Outcome.started_thread w reads (init w fs out fmt resolution))
      as (tail & E & P & _).
    rewrite E, Trace.percents_app, P, app_nil_r.
    apply Trace.loop_rising. split; cbn; constructor.
Qed.

(** X3: when each file has, at the iteration that reads it, the size
    [__init__] read (the thread is made in a world [w0], the run
    starts in [w] and iteration [j] reads [ws j]), [processed_size]
    never exceeds [total_size], and [total_size] is the sum of those
    sizes in whatever order the pre-sort leaves the files.  Without
    the fixed sizes it is not so: [overwritten_input_overshoots]. *)
Theorem processed_within_total
    (w0 w : World) (ws : nat -> World) (reads : nat -> Reads) (fs : list string)
    (out fmt resolution : string) :
  (forall j f, nth_error (presort w fs) j = Some f ->
               getsize (ws j) f = getsize w0 f) ->
  let t := snd (run_at w ws reads (init w0 fs out fmt resolution)) in
  (processed_size t <= total_size t)%N
  /\ total_size t = _calculate_total_size w0 (files t).
Proof.
  intros Hsize. cbv zeta.
  set (t0 := init w0 fs out fmt resolution).
  destruct (Changing.run_at_cases w ws reads t0) as [[e ->] | [_ ->]].
  - cbn. split; [lia | reflexivity].
  - change (files t0) with fs.
    pose proof (@Changing.loop_at_same_job ws reads (presort w fs) 0 (entered w t0))
      as (Jf & _ & _ & _ & Jt).
    assert (In0 : within_totals w0 (entered w t0) 0 (presort w fs)).
    { split; cbn; [|lia].
      rewrite (Presort.total_size_perm w0 (Presort.presort_perm w fs)). lia. }
    pose proof (@Changing.loop_at_within_totals ws reads w0 (presort w fs) 0
                  (entered w t0) Hsize In0) as Bound.
    assert (Tot : total_size (entered w t0)
                  = _calculate_total_size w0 (files (entered w t0))).
    { cbn. apply Presort.total_size_perm, Presort.presort_perm. }
    destruct (loop_at ws reads 0 (presort w fs) (entered w t0)) as [[| |] t2];
      cbn [fst snd emit processed_size total_size files] in *;
      rewrite Jf, Jt; split; assumption.
Qed.

Lemma processed_within_total_witness :
  let t := snd (run_at studio (fun _ => corrupt) idle
                  (init studio ["in/big.png"; "in/small.jpeg"; "in/gone.png"]
                     "out" "PNG" "HD")) in
  (processed_size t <= total_size t)%N
  /\ total_size t = _calculate_total_size studio (files t).
Proof.
  apply (@processed_within_total studio studio (fun _ => corrupt) idle
           ["in/big.png"; "in/small.jpeg"; "in/gone.png"] "out" "PNG" "HD").
  intros j f _. reflexivity.
Defined.

(** *** The signals and the counters *)

(** X4: past the directory check, [failure_count] is the number of
    error signals plus the number of "Skipping..." snapshots, and
    [success_count] the number of the other snapshots: every counted
    file sends exactly one signal. *)
Theorem signals_account_for_counters
    (w : World) (reads : nat -> Reads) (fs : list string)
    (out fmt resolution : string) :
  directory_ready w out ->
  let t := snd (run w reads (init w fs out fmt resolution)) in
  failure_count t
  = (count_of is_error (emitted t) + count_of is_skip_snapshot (emitted t))%nat
  /\ success_count t = count_of is_conversion_snapshot (emitted t).
Proof.
  intros D. cbv zeta. rewrite (@Run.run_started w reads (init w fs out fmt resolution) D).
  destruct (Outcome.started_thread w reads (init w fs out fmt resolution))
    as (tail & E & _ & _ & Ce & Cs & Cc & _ & _ & _ & Sc & Fc & _).
  rewrite E, Sc, Fc, !Outcome.count_app, Ce, Cs, Cc.
  destruct (Trace.loop_accounted w reads (presort w (files (init w fs out fmt resolution)))
              0 (entered w (init w fs out fmt resolution))) as (A & B & _).
  change (files (init w fs out fmt resolution)) with fs in *.
  cbn in A, B. split; lia.
Qed.

Lemma signals_account_for_counters_witness :
  let t := snd (run corrupt idle
                  (init corrupt ["in/big.png"; "in/small.jpeg"; "in/gone.png"]
                     "out" "PNG" "HD")) in
  failure_count t
  = (count_of is_error (emitted t) + count_of is_skip_snapshot (emitted t))%nat
  /\ success_count t = count_of is_conversion_snapshot (emitted t).
Proof.
  apply (@signals_account_for_counters corrupt idle
           ["in/big.png"; "in/small.jpeg"; "in/gone.png"] "out" "PNG" "HD").
  left. reflexivity.
Defined.

(** X5: a run that ends completed or cancelled emits the completion
    signal once, as its last signal, with the counters and the output
    path the thread ends with; a run that stops at the directory check
    or crashes emits none. *)
Theorem completion_signal_closes_the_run
    (w : World) (reads : nat -> Reads) (t : Thread) :
  let r := run w reads t in
  match fst r with
  | Completed | Cancelled =>
      exists earlier,
        emitted (snd r)
        = (earlier ++ [completion_signal (last_output_path (snd r))
                         (Float.of_int (Z.of_N (total_size (snd r))))
                         (Float.of_int (Z.of_N (output_total_size (snd r))))
                         (success_count (snd r)) (failure_count (snd r))])%list
        /\ count_of is_completion earlier = count_of is_completion (emitted t)
  | DirectoryError | Crashed =>
      count_of is_completion (emitted (snd r)) = count_of is_completion (emitted t)
  end.
Proof.
  cbv zeta.
  destruct (Outcome.run_cases w reads t) as [[e ->] | [_ ->]].
  - cbn [fst snd emit emitted]. rewrite Outcome.count_app. cbn. lia.
  - destruct (Trace.loop_accounted w reads (presort w (files t)) 0 (entered w t))
      as (_ & _ & C).
    destruct (Outcome.started_cases w reads t) as [[U ->] | [U ->]]; cbn [fst snd].
    + exact C.
    + assert (X : exists earlier,
                 emitted (emit (completion_signal
                    (last_output_path (snd (loop w reads 0 (presort w (files t)) (entered w t))))
                    (Float.of_int (Z.of_N (total_size (snd (loop w reads 0 (presort w (files t)) (entered w t))))))
                    (Float.of_int (Z.of_N (output_total_size (snd (loop w reads 0 (presort w (files t)) (entered w t))))))
                    (success_count (snd (loop w reads 0 (presort w (files t)) (entered w t))))
                    (failure_count (snd (loop w reads 0 (presort w (files t)) (entered w t)))))
                    (snd (loop w reads 0 (presort w (files t)) (entered w t))))
                 = (earlier ++ [completion_signal
                    (last_output_path (snd (loop w reads 0 (presort w (files t)) (entered w t))))
                    (Float.of_int (Z.of_N (total_size (snd (loop w reads 0 (presort w (files t)) (entered w t))))))
                    (Float.of_int (Z.of_N (output_total_size (snd (loop w reads 0 (presort w (files t)) (entered w t))))))
                    (success_count (snd (loop w reads 0 (presort w (files t)) (entered w t))))
                    (failure_count (snd (loop w reads 0 (presort w (files t)) (entered w t))))])%list
                 /\ count_of is_completion earlier = count_of is_completion (emitted t)).
      { eexists. split; [reflexivity | exact C]. }
      destruct (fst (loop w reads 0 (presort w (files t)) (entered w t)));
        [exact X | exact X | congruence].
Qed.

(** X6: the kinds of the error signals.  [run] only adds signals, and
    each error signal it adds is of kind DIR_ERROR, FILE_NOT_FOUND,
    MEMORY or IMPORT_ERROR, or carries the upper-cased extension of a
    file of recognized extension. *)
Theorem error_signals_carry_known_kinds
    (w : World) (reads : nat -> Reads) (t : Thread) :
  exists evs,
    emitted (snd (run w reads t)) = (emitted t ++ evs)%list
    /\ Forall (fun kind => known_kind kind = true) (error_kinds evs).
Proof.
  destruct (Outcome.run_cases w reads t) as [[e ->] | [_ ->]].
  - eexists [_]. split; [reflexivity|]. cbn [error_kinds]. repeat constructor.
  - destruct (Outcome.started_thread w reads t) as (tail & E & _ & K & _).
    destruct (Trace.loop_emits w reads (presort w (files t)) 0 (entered w t))
      as (evs & E' & F).
    exists (evs ++ tail)%list. split.
    + rewrite E, E', app_assoc. reflexivity.
    + rewrite Trace.error_kinds_app, K, app_nil_r. exact F.
Qed.

(** *** Cancellation *)

(** X7: [stop()] leaves the rest of the list untouched.  When the loop
    has gone through the first files of the sorted list and finds
    [_is_running] false at the next one, [run] ends cancelled, in the
    state those first files left, plus the completion signal. *)
Theorem stop_leaves_the_rest_untouched
    (w : World) (reads : nat -> Reads) (t : Thread) (fs1 fs2 : list string) :
  directory_ready w (output_dir t) ->
  presort w (files t) = (fs1 ++ fs2)%list -> fs2 <> [] ->
  fst (loop w reads 0 fs1 (entered w t)) = Continue ->
  is_running (reads (List.length fs1)) = false ->
  let t1 := snd (loop w reads 0 fs1 (entered w t)) in
  run w reads t
  = (Cancelled,
     emit (completion_signal (last_output_path t1)
             (Float.of_int (Z.of_N (total_size t1)))
             (Float.of_int (Z.of_N (output_total_size t1)))
             (success_count t1) (failure_count t1)) t1).
Proof.
  intros D E N C R. cbv zeta. rewrite (@Run.run_started w reads t D).
  unfold started. change (files (entered w t)) with (presort w (files t)).
  rewrite E, (@Trace.loop_cancelled w reads fs1 fs2 0 (entered w t) C N R).
  reflexivity.
Qed.

Lemma stop_leaves_the_rest_untouched_witness :
  fst (run studio Desk.stopped_at_1
         (init studio ["in/big.png"; "in/small.jpeg"] "out" "PNG" "HD")) = Cancelled
  /\ success_count
       (snd (run studio Desk.stopped_at_1
               (init studio ["in/big.png"; "in/small.jpeg"] "out" "PNG" "HD"))) = 1%nat.
Proof.
  rewrite (@stop_leaves_the_rest_untouched studio Desk.stopped_at_1
             (init studio ["in/big.png"; "in/small.jpeg"] "out" "PNG" "HD")
             ["in/small.jpeg"] ["in/big.png"]).
  - split; vm_compute; reflexivity.
  - left. reflexivity.
  - vm_compute. reflexivity.
  - discriminate.
  - vm_compute. reflexivity.
  - reflexivity.
Defined.

(** *** The pre-sort *)


(** *** The last output path *)

(** X9: after a run that got past the directory check and did not
    crash, [last_output_path] is the output path of the last file
    that got to the [try] block, converted or not; the empty string
    when no file got there. *)
Theorem last_output_path_is_last_attempted
    (w : World) (reads : nat -> Reads) (t : Thread) :
  directory_ready w (output_dir t) -> fst (run w reads t) <> Crashed ->
  last_output_path (snd (run w reads t))
  = last_tried w t reads (reached reads 0 (presort w (files t))) "".
Proof.
  intros D. rewrite (@Run.run_started w reads t D). intros NC.
  destruct (Outcome.started_thread w reads t) as (tail & _ & _ & _ & _ & _ & _ & _ & _ & _ & _ & _ & L).
  rewrite L, Trace.loop_last_output.
  - cbn [entered set_files set_output_total_size set_last_output_path last_output_path].
    apply Trace.last_tried_same_job; reflexivity.
  - intros U. destruct (Outcome.started_cases w reads t) as [[_ E] | [U' _]].
    + rewrite E in NC. apply NC. reflexivity.
    + apply U'. exact U.
Qed.

Lemma last_output_path_is_last_attempted_witness :
  last_output_path
    (snd (run corrupt idle
            (init corrupt ["in/big.png"; "in/small.jpeg"] "out" "PNG" "HD")))
  = "out/big.png"
  /\ success_count
       (snd (run corrupt idle
               (init corrupt ["in/big.png"; "in/small.jpeg"] "out" "PNG" "HD"))) = 1%nat.
Proof.
  split.
  - rewrite (@last_output_path_is_last_attempted corrupt idle
               (init corrupt ["in/big.png"; "in/small.jpeg"] "out" "PNG" "HD")).
    + vm_compute. reflexivity.
    + left. reflexivity.
    + vm_compute. discriminate.
  - vm_compute. reflexivity.
Defined.

(** *** The sizes the resolution rules produce *)

(** X10: a raster image is never reduced.  With native sides W and H
    (below 2^53) and a decoder whose [resize] and [copy] succeed, the
    image ends at least W x H, and at least 3839 x 2159: the 4K
    minimum, less the pixel the truncation may take. *)
Theorem raster_is_never_reduced
    (w : World) (resolution file ext : string) (file_size : N) (W H : Z) :
  ext <> "PSD" -> ext <> "PDF" ->
  image_open w file = inr (W, H) ->
  (0 < W < 2 ^ 53)%Z -> (0 < H < 2 ^ 53)%Z ->
  (forall size, resize w file size = inr tt) -> copy w file = inr tt ->
  exists W' H' : Z,
    decode w resolution file ext file_size = inr (W', H')
    /\ (W <= W')%Z /\ (H <= H')%Z /\ (3839 <= W')%Z /\ (2159 <= H')%Z.
Proof.
  intros Hpsd Hpdf Hopen HW HH Hresize Hcopy.
  rewrite (@Resolution.decode_raster w resolution file ext file_size W H)
    by (assumption || lia).
  destruct ((3840 <=? W)%Z && (2160 <=? H)%Z) eqn:Big.
  - apply andb_true_iff in Big as [Bw Bh]. apply Z.leb_le in Bw, Bh.
    exists W, H. split; [|lia].
    destruct (100 * 1024 * 1024 <? file_size)%N; [rewrite Hcopy|]; reflexivity.
  - cbv zeta. rewrite Hresize. cbn [bind].
    pose proof (Sizes.raster_size_bounds HW HH Big) as B. cbv zeta in B.
    destruct (scaled W H _) as [W' H'] eqn:S in *. cbn [fst snd] in B.
    exists W', H'. split; [reflexivity | exact B].
Qed.

Lemma raster_is_never_reduced_witness :
  exists W' H' : Z,
    decode studio "HD" "in/small.jpeg" "JPEG" 100 = inr (W', H')
    /\ (1920 <= W')%Z /\ (1080 <= H')%Z /\ (3839 <= W')%Z /\ (2159 <= H')%Z.
Proof.
  apply (@raster_is_never_reduced studio "HD" "in/small.jpeg" "JPEG" 100 1920 1080);
    try discriminate; try reflexivity; lia.
Defined.

(** X11: a PSD input that opens at W x H is resized, by [decode], to
    a size that lies inside the box of the preset and reaches it on
    one side. *)
Theorem psd_size_fits_the_box (resolution : string) (W H : Z) :
  (0 < W < 2 ^ 32)%Z -> (0 < H < 2 ^ 32)%Z ->
  exists new_w new_h : Z,
    psd_size resolution W H = inr (new_w, new_h)
    /\ (forall (w : World) (file : string) (file_size : N),
          psd_open w file = inr (W, H) ->
          decode w resolution file "PSD" file_size
          = (_ <- resize w file (new_w, new_h) ;; inr (new_w, new_h)))
    /\ (0 <= new_w <= fst (target_box resolution))%Z
    /\ (0 <= new_h <= snd (target_box resolution))%Z
    /\ (new_w = fst (target_box resolution) \/ new_h = snd (target_box resolution)).
Proof.
  intros HW HH.
  destruct (Sizes.psd_size_fits resolution HW HH) as (nw & nh & E & A & B & C & _).
  exists nw, nh. split; [exact E|]. split; [|repeat split; try assumption; lia].
  intros w file file_size Hopen.
  rewrite (@Resolution.decode_psd w resolution file file_size W H Hopen), E.
  reflexivity.
Qed.

Lemma psd_size_fits_the_box_witness :
  exists new_w new_h : Z,
    decode poster "4K" "in/art.psd" "PSD" 200 = inr (new_w, new_h)
    /\ (0 <= new_w <= 3840)%Z /\ (0 <= new_h <= 2160)%Z
    /\ (new_w = 3840%Z \/ new_h = 2160%Z).
Proof.
  destruct (@psd_size_fits_the_box "4K" 4000 2000) as (nw & nh & _ & Dec & Bounds);
    [lia | lia |].
  exists nw, nh. split; [|exact Bounds].
  rewrite (Dec poster "in/art.psd" 200%N eq_refl). reflexivity.
Defined.

(** X12: the PSD rule has no lower bound.  A PSD input that opens at
    W x H with W more than Tw times H is handed to [resize] with the
    size Tw x 0, and one with H more than Th times W with the size
    0 x Th; [decode] has no other outcome for it than what that
    [resize] does. *)
Theorem elongated_psd_gets_an_empty_side
    (w : World) (resolution file : string) (file_size : N) (W H : Z) :
  (0 < W < 2 ^ 32)%Z -> (0 < H < 2 ^ 32)%Z ->
  psd_open w file = inr (W, H) ->
  ((fst (target_box resolution) * H < W)%Z ->
   psd_size resolution W H = inr (fst (target_box resolution), 0%Z)
   /\ decode w resolution file "PSD" file_size
      = (_ <- resize w file (fst (target_box resolution), 0%Z) ;;
         inr (fst (target_box resolution), 0%Z)))
  /\ ((snd (target_box resolution) * W < H)%Z ->
      psd_size resolution W H = inr (0%Z, snd (target_box resolution))
      /\ decode w resolution file "PSD" file_size
         = (_ <- resize w file (0%Z, snd (target_box resolution)) ;;
            inr (0%Z, snd (target_box resolution)))).
Proof.
  intros HW HH Hopen.
  destruct (Sizes.psd_size_fits resolution HW HH)
    as (nw & nh & E & A & B & C & Zh & Zw).
  destruct (Resolution.box_facts resolution) as (_ & _ & _ & _ & [Ptw _] & [Pth _]).
  rewrite (@Resolution.decode_psd w resolution file file_size W H Hopen), E.
  cbn [bind]. split; intros L.
  - specialize (Zh L). subst nh.
    destruct C as [-> | C]; [split; reflexivity | lia].
  - specialize (Zw L). subst nw.
    destruct C as [C | ->]; [lia | split; reflexivity].
Qed.

Lemma elongated_psd_gets_an_empty_side_witness :
  psd_size "HD" 3000 2 = inr (1280, 0)%Z
  /\ decode ribbon "HD" "in/art.psd" "PSD" 200
     = (_ <- resize ribbon "in/art.psd" (1280, 0)%Z ;; inr (1280, 0)%Z).
Proof.
  apply (@elongated_psd_gets_an_empty_side ribbon "HD" "in/art.psd" 200 3000 2);
    [lia | lia | reflexivity | reflexivity].
Defined.

(** *** The window *)

(** X13: the preset [toggle_conversion] reads off the resolution text
    is HD when the text has "HD" in it and 4K otherwise: the test for
    "FHD" comes second and a text with "FHD" in it has "HD" in it, so
    no text selects FHD and the thread never gets the 1920 x 1080
    box. *)
Theorem window_never_selects_fhd (resolution_text : string) :
  selected_resolution resolution_text
  = (if contains "HD" resolution_text then "HD" else "4K")
  /\ selected_resolution resolution_text <> "FHD"
  /\ target_box (selected_resolution resolution_text) <> (1920, 1080)%Z.
Proof.
  assert (E : selected_resolution resolution_text
              = if contains "HD" resolution_text then "HD" else "4K").
  { unfold selected_resolution. destruct (contains "HD" resolution_text) eqn:A;
      [reflexivity|].
    destruct (contains "FHD" resolution_text) eqn:B; [|reflexivity].
    apply Window.fhd_has_hd in B. congruence. }
  split; [exact E|]. rewrite E.
  destruct (contains "HD" resolution_text); split; discriminate.
Qed.

(** X14: a thread the window launches gets past the directory check:
    the files and the output folder are not empty, the preset is HD
    or 4K, and [run], in the world the window saw, does not end with
    a directory error. *)
Theorem launched_thread_passes_directory_check
    (w : World) (reads : nat -> Reads) (selected : list string)
    (out format_text resolution_text : string) (t : Thread) :
  toggle_conversion w selected out format_text resolution_text = Launched t ->
  selected <> [] /\ out <> ""
  /\ fst (run w reads t) <> DirectoryError
  /\ (psd_resolution t = "HD" \/ psd_resolution t = "4K").
Proof.
  unfold toggle_conversion. intros L.
  destruct selected as [|f fs]; [discriminate|]. cbn [orb] in L.
  destruct (String.eqb_spec out "") as [|Ne]; [discriminate|].
  assert (D : directory_ready w out /\
              t = init w (f :: fs) out format_text
                    (selected_resolution resolution_text)).
  { unfold directory_ready. destruct (path_exists w out).
    - injection L as <-. split; [left|]; reflexivity.
    - destruct (makedirs w out); [discriminate|].
      injection L as <-. split; [right|]; reflexivity. }
  destruct D as [D ->].
  split; [discriminate|]. split; [exact Ne|]. split.
  - rewrite (@Run.run_started w reads
               (init w (f :: fs) out format_text
                  (selected_resolution resolution_text)) D).
    destruct (Outcome.started_cases w reads
                (init w (f :: fs) out format_text
                   (selected_resolution resolution_text))) as [[_ ->] | [_ ->]];
      cbn [fst]; [discriminate|].
    destruct (fst (loop _ _ _ _ _)); discriminate.
  - cbn [psd_resolution init]. apply Window.selected_resolution_cases.
Qed.

Lemma launched_thread_passes_directory_check_witness :
  fst (run studio idle
         (init studio ["in/art.psd"] "out" "PNG" "HD")) <> DirectoryError.
Proof.
  apply (@launched_thread_passes_directory_check studio idle ["in/art.psd"] "out"
           "PNG" "FHD (1920x1080)" (init studio ["in/art.psd"] "out" "PNG" "HD")).
  reflexivity.
Defined.

(** X15: the folder picker and the thread agree.  Under the laws of
    [os.path], the files [select_files_or_folder] keeps of a folder
    are the regular files whose extension the thread recognizes
    (its [lstrip('.')] against the thread's [[1:]], its names against
    the thread's base names), in the order of the listing. *)
Theorem folder_filter_agrees_with_thread
    (w : World) (d : Folders) (folder : string) :
  path_laws w folder (listdir d folder) ->
  select_folder w d folder
  = map (join w folder)
      (filter (fun f => isfile d (join w folder f)
                        && recognized (extension_of w (join w folder f)))
         (listdir d folder))
  /\ Forall (fun p => recognized (extension_of w p) = true) (select_folder w d folder).
Proof.
  intros Laws.
  assert (E := @Window.supported_among_spec w d folder (listdir d folder)
                 (listdir d folder) Laws (incl_refl _)).
  unfold select_folder. rewrite E. split; [reflexivity|].
  apply Forall_forall. intros p Hp. apply in_map_iff in Hp as (f & <- & Hf).
  apply filter_In in Hf as [_ Hf]. apply andb_true_iff in Hf as [_ Hf]. exact Hf.
Qed.

Lemma desk_path_laws : path_laws studio "in" (listdir Desk.shelf "in").
Proof.
  repeat split.
  - intros f [<-|[<-|[<-|[<-|[<-|[<-|[]]]]]]]; vm_compute; reflexivity.
  - intros f [<-|[<-|[<-|[<-|[<-|[<-|[]]]]]]]; vm_compute; reflexivity.
Defined.

Lemma folder_filter_agrees_with_thread_witness :
  select_folder studio Desk.shelf "in"
  = ["in/big.png"; "in/art.psd"; "in/small.jpeg"]
  /\ Forall (fun p => recognized (extension_of studio p) = true)
       (select_folder studio Desk.shelf "in").
Proof.
  destruct (@folder_filter_agrees_with_thread studio Desk.shelf "in" desk_path_laws)
    as [E F].
  split; [|exact F]. rewrite E. vm_compute. reflexivity.
Defined.

(** X16: in a job made of a picked folder no reached file goes
    uncounted: after a run that did not stop at the directory check
    or crash, [success_count + failure_count] is the number of files
    the loop reached. *)
Theorem folder_job_counts_every_reached_file
    (w : World) (d : Folders) (reads : nat -> Reads)
    (folder out fmt resolution : string) :
  path_laws w folder (listdir d folder) -> directory_ready w out ->
  let r := run w reads (init w (select_folder w d folder) out fmt resolution) in
  fst r <> Crashed ->
  (success_count (snd r) + failure_count (snd r))%nat
  = List.length (reached reads 0 (presort w (select_folder w d folder))).
Proof.
  intros Laws D. cbv zeta.
  rewrite (@Run.run_started w reads (init w (select_folder w d folder) out fmt resolution) D).
  intros NC.
  destruct (Outcome.started_thread w reads
              (init w (select_folder w d folder) out fmt resolution))
    as (tail & _ & _ & _ & _ & _ & _ & _ & _ & _ & Sc & Fc & _).
  rewrite Sc, Fc.
  change (files (init w (select_folder w d folder) out fmt resolution))
    with (select_folder w d folder) in *.
  rewrite Loop.loop_counts.
  - rewrite Outcome.recognized_all_counted; [cbn; lia|].
    destruct (@Window.supported_among_spec w d folder (listdir d folder)
                (listdir d folder) Laws (incl_refl _)).
    apply Forall_forall. intros p Hp.
    apply (Permutation_in _ (Permutation_sym (Presort.presort_perm w _))) in Hp.
    unfold select_folder in Hp.
    rewrite (@Window.supported_among_spec w d folder (listdir d folder)
               (listdir d folder) Laws (incl_refl _)) in Hp.
    apply in_map_iff in Hp as (f & <- & Hf).
    apply filter_In in Hf as [_ Hf]. apply andb_true_iff in Hf as [_ Hf]. exact Hf.
  - intros U.
    destruct (Outcome.started_cases w reads
                (init w (select_folder w d folder) out fmt resolution))
      as [[_ E] | [U' _]].
    + rewrite E in NC. apply NC. reflexivity.
    + apply U'. exact U.
Qed.

Lemma folder_job_counts_every_reached_file_witness :
  (success_count
     (snd (run corrupt idle (init corrupt (select_folder corrupt Desk.shelf "in")
                               "out" "PNG" "HD")))
   + failure_count
       (snd (run corrupt idle (init corrupt (select_folder corrupt Desk.shelf "in")
                                 "out" "PNG" "HD"))))%nat
  = 3%nat.
Proof.
  rewrite (@folder_job_counts_every_reached_file corrupt Desk.shelf idle "in" "out"
             "PNG" "HD").
  - vm_compute. reflexivity.
  - repeat split;
      intros f [<-|[<-|[<-|[<-|[<-|[<-|[]]]]]]]; vm_compute; reflexivity.
  - left. reflexivity.
  - vm_compute. discriminate.
Defined.

(** *** The controller *)

(** X17: a controller that leaves the skip policy alone, as the window
    does (its error handler only calls [stop()]).  Past the directory
    check the run does not crash, sends no "Skipping..." snapshot, and
    [processed_size] and [success_count] grow by the bytes and the
    number of the reached files that were converted: no failed file
    adds to the progress. *)
Theorem hands_off_controller (w : World) (reads : nat -> Reads) (t : Thread) :
  hands_off reads -> directory_ready w (output_dir t) ->
  let r := run w reads t in
  let done :=
    filter (fun x => converted w t (reads (fst x)) (snd x))
      (reached reads 0 (presort w (files t))) in
  fst r <> Crashed
  /\ processed_size (snd r) = (processed_size t + bytes_of w done)%N
  /\ success_count (snd r) = (success_count t + List.length done)%nat
  /\ count_of is_skip_snapshot (emitted (snd r))
     = count_of is_skip_snapshot (emitted t).
Proof.
  intros Hands D. cbv zeta. rewrite (@Run.run_started w reads t D).
  destruct (@Trace.loop_hands_off w reads (presort w (files t)) Hands 0 (entered w t))
    as (U & P & Sc & K).
  assert (E : filter (fun x => converted w (entered w t) (reads (fst x)) (snd x))
                (reached reads 0 (presort w (files t)))
              = filter (fun x => converted w t (reads (fst x)) (snd x))
                  (reached reads 0 (presort w (files t)))).
  { apply filter_ext. intros x. apply Trace.converted_same_job; reflexivity. }
  rewrite E in P, Sc.
  change (processed_size (entered w t)) with (processed_size t) in P.
  change (success_count (entered w t)) with (success_count t) in Sc.
  change (emitted (entered w t)) with (emitted t) in K.
  destruct (Outcome.started_thread w reads t)
    as (tail & Em & _ & _ & _ & Cs & _ & _ & _ & Pe & Se & _).
  rewrite Pe, Se, Em, Outcome.count_app, Cs, P, Sc, K.
  split; [|repeat split; lia].
  destruct (Outcome.started_cases w reads t) as [[U' _] | [_ ->]];
    [congruence|]. cbn [fst].
  destruct (fst (loop _ _ _ _ _)); discriminate.
Qed.

Lemma hands_off_controller_witness :
  processed_size
    (snd (run corrupt idle
            (init corrupt ["in/big.png"; "in/small.jpeg"; "in/gone.png"]
               "out" "PNG" "HD"))) = 100%N.
Proof.
  destruct (@hands_off_controller corrupt idle
              (init corrupt ["in/big.png"; "in/small.jpeg"; "in/gone.png"]
                 "out" "PNG" "HD")) as (_ & P & _).
  - intros i. repeat split.
  - left. reflexivity.
  - rewrite P. vm_compute. reflexivity.
Defined.

(** X18: skip-all set throughout, and sizes that can be read.  Past
    the directory check the run does not crash, converts nothing,
    sends no error signal, and [processed_size] grows by the bytes of
    the reached files that exist, whatever their extension. *)
Theorem skip_all_controller (w : World) (reads : nat -> Reads) (t : Thread) :
  skips_everything reads -> directory_ready w (output_dir t) ->
  (forall f, In f (files t) -> path_exists w f = true -> getsize w f <> None) ->
  let r := run w reads t in
  fst r <> Crashed
  /\ success_count (snd r) = success_count t
  /\ count_of is_error (emitted (snd r)) = count_of is_error (emitted t)
  /\ processed_size (snd r)
     = (processed_size t
        + bytes_of w (filter (fun x => path_exists w (snd x))
                        (reached reads 0 (presort w (files t)))))%N.
Proof.
  intros Skips D G. cbv zeta. rewrite (@Run.run_started w reads t D).
  destruct (@Trace.loop_skips_all w reads (presort w (files t)) Skips) with
    (i := 0%nat) (t := entered w t) as (U & Sc & K & P).
  { intros f Hf. apply G.
    apply (Permutation_in _ (Permutation_sym (Presort.presort_perm w _))). exact Hf. }
  change (processed_size (entered w t)) with (processed_size t) in P.
  change (success_count (entered w t)) with (success_count t) in Sc.
  change (emitted (entered w t)) with (emitted t) in K.
  destruct (Outcome.started_thread w reads t)
    as (tail & Em & _ & _ & Ce & _ & _ & _ & _ & Pe & Se & _).
  rewrite Pe, Se, Em, Outcome.count_app, Ce, P, Sc, K.
  split; [|repeat split; lia].
  destruct (Outcome.started_cases w reads t) as [[U' _] | [_ ->]];
    [congruence|]. cbn [fst].
  destruct (fst (loop _ _ _ _ _)); discriminate.
Qed.

Lemma skip_all_controller_witness :
  processed_size
    (snd (run studio skipping
            (init studio ["in/big.png"; "in/notes.txt"; "in/gone.png"]
               "out" "PNG" "HD"))) = 350%N
  /\ success_count
       (snd (run studio skipping
               (init studio ["in/big.png"; "in/notes.txt"; "in/gone.png"]
                  "out" "PNG" "HD"))) = 0%nat.
Proof.
  destruct (@skip_all_controller studio skipping
              (init studio ["in/big.png"; "in/notes.txt"; "in/gone.png"]
                 "out" "PNG" "HD")) as (_ & Sc & _ & P).
  - intros i. reflexivity.
  - left. reflexivity.
  - intros f [<-|[<-|[<-|[]]]]; vm_compute; discriminate.
  - split; [rewrite P | rewrite Sc]; vm_compute; reflexivity.
Defined.

(** *** The summary *)

(** X19: the compression ratio of [on_conversion_complete].  A
    division by zero raises, and the test [input_size > 0] keeps the
    division from it: for any two floats the ratio is computed and
    nothing is raised.  For the two sizes of a completion signal it is
    never negative, and at most 100 when the outputs are no larger
    than the inputs. *)
Theorem compression_ratio_range :
  (forall output_size : Q, truediv output_size 0 = inl ZeroDivisionError)
  /\ (forall input_size output_size : Q,
        exists ratio, compression_ratio input_size output_size = inr ratio)
  /\ (forall input output : N,
        exists ratio,
          compression_ratio (Float.of_int (Z.of_N input)) (Float.of_int (Z.of_N output))
          = inr ratio
          /\ (0 <= ratio)%Q /\ ((output <= input)%N -> (ratio <= 100)%Q)).
Proof.
  assert (Guard : forall a b : Q, Float.gt b 0 = true ->
            truediv a b = inr (Float.div a b)).
  { intros a b G. apply FloatFacts.gt_true in G. unfold truediv.
    destruct (Qeq_bool b 0) eqn:Z; [|reflexivity].
    apply Qeq_bool_iff in Z. lra. }
  split; [intros output_size; reflexivity|]. split.
  - intros input_size output_size. unfold compression_ratio.
    destruct (Float.gt input_size 0) eqn:G; [|eexists; reflexivity].
    rewrite (Guard output_size input_size G). eexists. reflexivity.
  - intros input output. unfold compression_ratio.
    assert (I0 : (0 <= Float.of_int (Z.of_N input))%Q).
    { apply FloatOrder.rnd_nonneg. change 0%Q with (inject_Z 0).
      rewrite <- Zle_Qle. lia. }
    assert (O0 : (0 <= Float.of_int (Z.of_N output))%Q).
    { apply FloatOrder.rnd_nonneg. change 0%Q with (inject_Z 0).
      rewrite <- Zle_Qle. lia. }
    assert (AB : (output <= input)%N ->
                 (Float.of_int (Z.of_N output) <= Float.of_int (Z.of_N input))%Q).
    { intros L. apply FloatOrder.rnd_mono.
      - change 0%Q with (inject_Z 0). rewrite <- Zle_Qle. lia.
      - rewrite <- Zle_Qle. lia. }
    set (a := Float.of_int (Z.of_N output)) in *.
    set (b := Float.of_int (Z.of_N input)) in *.
    destruct (Float.gt b 0) eqn:G.
    + rewrite (Guard a b G). cbn [bind]. eexists. split; [reflexivity|].
      apply FloatFacts.gt_true in G.
      assert (Q0 : (0 <= a / b)%Q).
      { apply Qle_shift_div_l; [exact G | lra]. }
      assert (D0 : (0 <= Float.div a b)%Q) by (apply FloatOrder.rnd_nonneg; exact Q0).
      split.
      * apply FloatOrder.rnd_nonneg. lra.
      * intros L. specialize (AB L).
        assert (Q1 : (a / b <= 1)%Q).
        { apply Qle_shift_div_r; [exact G | lra]. }
        assert (D1 : (Float.div a b <= 1)%Q).
        { unfold Float.div. change 1%Q with (Float.rnd 1).
          apply FloatOrder.rnd_mono; assumption. }
        unfold Float.mul. change 100%Q with (Float.rnd 100) at 2.
        apply FloatOrder.rnd_mono; lra.
    + eexists. split; [reflexivity|]. split; intros; lra.
Qed.

Lemma compression_ratio_range_witness :
  exists ratio,
    compression_ratio (Float.of_int 300) (Float.of_int 100) = inr ratio
    /\ (ratio <= 100)%Q.
Proof.
  destruct compression_ratio_range as (_ & _ & R).
  destruct (R 300%N 100%N) as (ratio & E & _ & B).
  exists ratio. split; [exact E | apply B; lia].
Defined.
